(** * iz-get, plugin [mangas_io]: session handling and page resolution

    A shallow embedding of [src/izneo_get/plugins/mangas_io.py] and the
    properties its specification states about it.

    Layout: the Python values the plugin handles ([Py]), the [float]
    conversion of a chapter number ([Float64]), the regular expression of
    the reader URL ([Regex]), the plugin itself ([MangasIo]), the
    semaphore around page resolution ([Gate]); then the lemmas.

    Conventions of the embedding.
    - A Python [str] is a [string]; every character is a code point below
      256, where [\d] is exactly [0-9].
    - JSON numbers are integers ([PInt]); a payload with a fractional
      number is outside the model.
    - Files are those of a POSIX system: [open(.., "w")] writes a text as
      it is, and [open(.., "r")] reads with universal newlines. The
      encoding layer of text mode is not modelled, nor is a device that
      fails after the file was opened.
    - [asyncio.Semaphore] is the one of CPython 3.11 and later, where
      [release] hands the permit to the first waiter; no call is
      cancelled.
    - Console output ([print]) is not modelled. *)

From Stdlib Require Import ZArith String Ascii List Bool Lia.
From stdpp Require Import base gmap strings list pretty.

Set Warnings "-register-all".

(** ** Python values and builtins *)

Module Py.

(** The exception classes the plugin can meet. [except Exception] catches
    all of them; the narrower handlers name one class. *)
Inductive exn : Set :=
| FileNotFoundError
| OSError
| RequestException
| JSONDecodeError
| KeyError (key : string)
| TypeError
| AttributeError
| ValueError.

(** Outcome of running a piece of code: a value, an exception, or (for the
    unbounded [while] of [authenticate]) the loop budget ran out. *)
Inductive result (A : Type) : Type :=
| Ok (a : A)
| Raise (e : exn)
| OutOfFuel.
Arguments Ok {A} a.
Arguments Raise {A} e.
Arguments OutOfFuel {A}.

Definition rbind {A B} (r : result A) (k : A → result B) : result B :=
  match r with
  | Ok a => k a
  | Raise e => Raise e
  | OutOfFuel => OutOfFuel
  end.

(** What [json.loads] builds. A [PDict] lists the items of the dict; it is
    read by key, first entry first. *)
Inductive pyval : Type :=
| PNone
| PBool (b : bool)
| PInt (z : Z)
| PStr (s : string)
| PList (items : list pyval)
| PDict (entries : list (string * pyval)).

Fixpoint assoc {A} (k : string) (d : list (string * A)) : option A :=
  match d with
  | [] => None
  | (k', v) :: d' => if String.eqb k k' then Some v else assoc k d'
  end.

(** [bool(v)] *)
Definition truthy (v : pyval) : bool :=
  match v with
  | PNone => false
  | PBool b => b
  | PInt z => negb (z =? 0)%Z
  | PStr s => negb (String.eqb s "")
  | PList l => negb (Nat.eqb (length l) 0)
  | PDict d => negb (Nat.eqb (length d) 0)
  end.

(** [a == b] *)
Fixpoint eqb (a b : pyval) {struct a} : bool :=
  match a, b with
  | PNone, PNone => true
  | PBool x, PBool y => Bool.eqb x y
  | PBool x, PInt y => (Z.b2z x =? y)%Z
  | PInt x, PBool y => (x =? Z.b2z y)%Z
  | PInt x, PInt y => (x =? y)%Z
  | PStr x, PStr y => String.eqb x y
  | PList xs, PList ys =>
      (fix all2 (xs : list pyval) (ys : list pyval) : bool :=
         match xs, ys with
         | [], [] => true
         | x :: xs', y :: ys' => eqb x y && all2 xs' ys'
         | _, _ => false
         end) xs ys
  | PDict xs, PDict ys =>
      Nat.eqb (length xs) (length ys) &&
      (fix sub (xs : list (string * pyval)) : bool :=
         match xs with
         | [] => true
         | (k, v) :: xs' =>
             match assoc k ys with
             | Some w => eqb v w
             | None => false
             end && sub xs'
         end) xs
  | _, _ => false
  end.

(** [v[key]] for a [str] key *)
Definition getitem (v : pyval) (key : string) : result pyval :=
  match v with
  | PDict d =>
      match assoc key d with
      | Some x => Ok x
      | None => Raise (KeyError key)
      end
  | _ => Raise TypeError
  end.

(** [v.get(key)] *)
Definition get (v : pyval) (key : string) : result pyval :=
  match v with
  | PDict d =>
      match assoc key d with
      | Some x => Ok x
      | None => Ok PNone
      end
  | _ => Raise AttributeError
  end.

(** [for x in v]: the items the loop visits. *)
Definition iter (v : pyval) : result (list pyval) :=
  match v with
  | PList l => Ok l
  | PDict d => Ok (map (λ kv, PStr (fst kv)) d)
  | PStr s => Ok (map (λ c, PStr (String c "")) (list_ascii_of_string s))
  | _ => Raise TypeError
  end.

Definition squote : ascii := "039"%char.
Definition dquote : ascii := "034"%char.
Definition bslash : ascii := "092"%char.

Definition hex_digit (n : N) : ascii :=
  nth (N.to_nat n) (list_ascii_of_string "0123456789abcdef") "0"%char.

Definition has_char (c : ascii) (s : string) : bool :=
  existsb (Ascii.eqb c) (list_ascii_of_string s).

Definition repr_char (q c : ascii) : string :=
  let n := N_of_ascii c in
  if Ascii.eqb c bslash then String bslash (String bslash "")
  else if Ascii.eqb c q then String bslash (String q "")
  else if (n =? 9)%N then String bslash "t"
  else if (n =? 10)%N then String bslash "n"
  else if (n =? 13)%N then String bslash "r"
  else if (n <? 32)%N || (n =? 127)%N || ((128 <=? n)%N && (n <=? 160)%N) || (n =? 173)%N
       then String bslash (String "x" (String (hex_digit (n / 16)) (String (hex_digit (n mod 16)) "")))
  else String c "".

Definition repr_str (s : string) : string :=
  let q := if has_char squote s && negb (has_char dquote s) then dquote else squote in
  String q (String.concat "" (map (repr_char q) (list_ascii_of_string s)) +:+ String q "").

(** [repr(v)] *)
Fixpoint repr (v : pyval) : string :=
  match v with
  | PNone => "None"
  | PBool true => "True"
  | PBool false => "False"
  | PInt z => pretty z
  | PStr s => repr_str s
  | PList l =>
      "[" +:+ String.concat ", "
        ((fix each (l : list pyval) : list string :=
            match l with
            | [] => []
            | x :: l' => repr x :: each l'
            end) l) +:+ "]"
  | PDict d =>
      "{" +:+ String.concat ", "
        ((fix each (d : list (string * pyval)) : list string :=
            match d with
            | [] => []
            | (k, x) :: d' => (repr_str k +:+ ": " +:+ repr x) :: each d'
            end) d) +:+ "}"
  end.

(** [str(v)] *)
Definition str (v : pyval) : string :=
  match v with
  | PStr s => s
  | _ => repr v
  end.

(** [sep.join(items)]: every item must be a [str]. *)
Fixpoint strings_of (items : list pyval) : result (list string) :=
  match items with
  | [] => Ok []
  | PStr s :: rest => rbind (strings_of rest) (λ ss, Ok (s :: ss))
  | _ :: _ => Raise TypeError
  end.

Definition join (sep : string) (items : list pyval) : result string :=
  rbind (strings_of items) (λ ss, Ok (String.concat sep ss)).

(** *** dict objects built by the program

    Insertion-ordered items with keys that are pairwise different under
    [==]. Keys must be hashable: lists and dicts are not. *)

Definition hashable (k : pyval) : bool :=
  match k with
  | PList _ | PDict _ => false
  | _ => true
  end.

Definition pydict : Type := list (pyval * pyval).

Fixpoint dict_get (k : pyval) (d : pydict) : option pyval :=
  match d with
  | [] => None
  | (k', v) :: d' => if eqb k' k then Some v else dict_get k d'
  end.

(** [d[k] = v] for a hashable [k]: an equal key keeps its place and its key
    object, a new key goes to the end. *)
Fixpoint dict_set (k v : pyval) (d : pydict) : pydict :=
  match d with
  | [] => [(k, v)]
  | (k', v') :: d' => if eqb k' k then (k', v) :: d' else (k', v') :: dict_set k v d'
  end.

Definition dict_setitem (k v : pyval) (d : pydict) : result pydict :=
  if hashable k then Ok (dict_set k v d) else Raise TypeError.

(** Text mode on reading ([open(.., "r")], universal newlines): a carriage
    return, together with the line feed after it if there is one, is read
    as one line feed. *)
Fixpoint universal_newlines (s : string) : string :=
  match s with
  | EmptyString => EmptyString
  | String c s' =>
      if Ascii.eqb c "013" then
        String "010"
          match s' with
          | String c' s'' =>
              if Ascii.eqb c' "010" then universal_newlines s'' else universal_newlines s'
          | EmptyString => EmptyString
          end
      else String c (universal_newlines s')
  end.

(** The text holds a carriage return. *)
Fixpoint has_cr (s : string) : bool :=
  match s with
  | EmptyString => false
  | String c s' => Ascii.eqb c "013" || has_cr s'
  end.

End Py.

(** ** [float] of a chapter number *)

Module Float64.

(** A non-negative IEEE 754 binary64 value: [Finite m e] is [m * 2^e] with
    [m] odd (or [m = 0], [e = 0]); [Infinity] is [inf]. The plugin only
    holds the class default [0.0] and [float] of a run of digits and dots,
    so no sign is needed. *)
Inductive float64 : Set :=
| Finite (m : N) (e : Z)
| Infinity.

(** The value as a fraction [(numerator, denominator)]. *)
Definition ratio (f : float64) : option (Z * Z) :=
  match f with
  | Finite m e =>
      Some (if (0 <=? e)%Z then (Z.of_N m * 2 ^ e, 1)%Z else (Z.of_N m, 2 ^ (- e))%Z)
  | Infinity => None
  end.

Fixpoint strip_twos (p : positive) (e : Z) : positive * Z :=
  match p with
  | xO p' => strip_twos p' (e + 1)%Z
  | _ => (p, e)
  end.

Definition normal (m e : Z) : float64 :=
  match m with
  | Zpos p => let '(p', e') := strip_twos p e in Finite (Npos p') e'
  | _ => Finite 0 0
  end.

(** The binary64 nearest to [n / d] ([0 <= n], [0 < d]), ties to even;
    a 53-bit significand, exponents from [-1074], overflow to [inf]. *)
Definition round_ratio (n d : Z) : float64 :=
  if (n <=? 0)%Z then Finite 0 0
  else
    let k := (Z.log2 n - Z.log2 d)%Z in
    let above := if (0 <=? k)%Z then (d * 2 ^ k <=? n)%Z else (d <=? n * 2 ^ (- k))%Z in
    let lg := if above then k else (k - 1)%Z in
    let e := Z.max (lg - 52) (-1074) in
    let num := if (e <? 0)%Z then (n * 2 ^ (- e))%Z else n in
    let den := if (e <? 0)%Z then d else (d * 2 ^ e)%Z in
    let q := (num / den)%Z in
    let r := (num mod den)%Z in
    let m :=
      if (2 * r <? den)%Z then q
      else if (den <? 2 * r)%Z then (q + 1)%Z
      else if Z.even q then q else (q + 1)%Z in
    if (971 <? e)%Z || ((e =? 971)%Z && (2 ^ 53 <=? m)%Z) then Infinity
    else normal m e.

Definition is_digit (c : ascii) : bool :=
  let n := N_of_ascii c in (48 <=? n)%N && (n <=? 57)%N.

Definition digit_value (c : ascii) : Z := Z.of_N (N_of_ascii c) - 48.

(** Reads digits into [acc]; returns the value, how many digits were read
    and the rest of the text. *)
Fixpoint digits (s : string) (acc : Z) (count : nat) : Z * nat * string :=
  match s with
  | String c s' =>
      if is_digit c then digits s' (10 * acc + digit_value c)%Z (S count)
      else (acc, count, s)
  | EmptyString => (acc, count, s)
  end.

(** [float(s)] for a text over digits and dots, the only ones group 2 of
    the URL pattern can hold: digits, at most one dot, at least one digit;
    anything else raises [ValueError]. The decimal value is rounded
    correctly. *)
Definition float_of_string (s : string) : Py.result float64 :=
  let '(ip, ni, rest) := digits s 0 0 in
  match rest with
  | EmptyString =>
      if Nat.eqb ni 0 then Py.Raise Py.ValueError else Py.Ok (round_ratio ip 1)
  | String c rest' =>
      if Ascii.eqb c "." then
        let '(all, nf, tail) := digits rest' ip 0 in
        match tail with
        | EmptyString =>
            if Nat.eqb (ni + nf) 0 then Py.Raise Py.ValueError
            else Py.Ok (round_ratio all (10 ^ Z.of_nat nf))
        | String _ _ => Py.Raise Py.ValueError
        end
      else Py.Raise Py.ValueError
  end.

End Float64.

(** ** The regular expression of the reader URL *)

Module Regex.

(** The fragment of [re] the plugin's pattern uses. *)
Inductive regex : Type :=
| Chars (p : ascii → bool)
| Seq (r1 r2 : regex)
| Plus (r : regex)
| Group (r : regex)
| Eps.

(** What [s] lost to reach its suffix [s']: the text a group captured. *)
Definition consumed (s s' : string) : string :=
  String.substring 0 (String.length s - String.length s') s.

(** Backtracking matcher with a continuation; [Plus] is greedy: it tries
    one more round before it lets the rest of the pattern run. [fuel]
    bounds the rounds of a [Plus]. *)
Fixpoint rmatch (fuel : nat) (r : regex) (s : string) (caps : list string)
    (k : string → list string → option (list string)) {struct fuel} : option (list string) :=
  (fix go (r : regex) (s : string) (caps : list string)
       (k : string → list string → option (list string)) {struct r} : option (list string) :=
     match r with
     | Eps => k s caps
     | Chars p =>
         match s with
         | String c s' => if p c then k s' caps else None
         | EmptyString => None
         end
     | Seq r1 r2 => go r1 s caps (λ s' caps', go r2 s' caps' k)
     | Group r1 => go r1 s caps (λ s' caps', k s' (caps' ++ [consumed s s']))
     | Plus r1 =>
         match fuel with
         | O => None
         | S fuel' =>
             go r1 s caps (λ s' caps',
               match rmatch fuel' (Plus r1) s' caps' k with
               | Some c => Some c
               | None => k s' caps'
               end)
         end
     end) r s caps k.

(** [re.match(r, s)]: a match at the start of [s]; its groups. *)
Definition matches (r : regex) (s : string) : option (list string) :=
  rmatch (S (String.length s)) r s [] (λ _ caps, Some caps).

(** [re.search(r, s)]: the leftmost start that matches. *)
Fixpoint search (r : regex) (s : string) : option (list string) :=
  match matches r s with
  | Some caps => Some caps
  | None =>
      match s with
      | String _ s' => search r s'
      | EmptyString => None
      end
  end.

Fixpoint lit (s : string) : regex :=
  match s with
  | String c s' => Seq (Chars (Ascii.eqb c)) (lit s')
  | EmptyString => Eps
  end.

End Regex.

(** ** The plugin *)

Module MangasIo.
Import Py Float64 Regex.

Notation "'let?' x ':=' r 'in' k" := (rbind r (λ x, k))
  (at level 10, x pattern, r at level 100, k at level 200).

(** *** World: the instance, the cache files, the exchanges so far *)

(** [self.chapter_nb]: a [float], or the matched text while
    [_parse_url] is between its two assignments. *)
Inductive chapter_value : Set :=
| ChFloat (f : float64)
| ChStr (s : string).

(** The JSON bodies the plugin sends; the fixed members ([operationName],
    [query], [quality = HD]) follow from the constructor. *)
Inductive request : Type :=
| TokenValidation (token : pyval)
| Login (email password : string)
| GetReadingChapter (slug : string) (chapterNb : chapter_value)
| GetPageById (id : pyval).

Inductive event : Type :=
| Prompt (masked : bool)
| Post (url : string) (headers : gmap string string) (body : request).

(** A [requests] response: [status_code] and what [json()] gives. *)
Record response : Type := { status_code : Z; json : exn + pyval }.

(** The outside world answers the last event of the history it is shown:
    the operator at the console, the backend on the network. A call that
    raises answers [inl]. *)
Record environment : Type := {
  console : list event → exn + string;
  server : list event → exn + response;
}.

Record state : Type := {
  url : string;
  cache_folder : option string;
  headers : gmap string string;
  bearer : pyval;
  slug : string;
  chapter_nb : chapter_value;
  files : gmap string string;
  locked : gset string;
  trace : list event;
}.

Definition set_headers (h : gmap string string) (s : state) : state :=
  {| url := url s; cache_folder := cache_folder s; headers := h; bearer := bearer s;
     slug := slug s; chapter_nb := chapter_nb s; files := files s; locked := locked s;
     trace := trace s |}.
Definition set_bearer (b : pyval) (s : state) : state :=
  {| url := url s; cache_folder := cache_folder s; headers := headers s; bearer := b;
     slug := slug s; chapter_nb := chapter_nb s; files := files s; locked := locked s;
     trace := trace s |}.
Definition set_slug (g : string) (s : state) : state :=
  {| url := url s; cache_folder := cache_folder s; headers := headers s; bearer := bearer s;
     slug := g; chapter_nb := chapter_nb s; files := files s; locked := locked s;
     trace := trace s |}.
Definition set_chapter_nb (c : chapter_value) (s : state) : state :=
  {| url := url s; cache_folder := cache_folder s; headers := headers s; bearer := bearer s;
     slug := slug s; chapter_nb := c; files := files s; locked := locked s;
     trace := trace s |}.
Definition set_files (f : gmap string string) (s : state) : state :=
  {| url := url s; cache_folder := cache_folder s; headers := headers s; bearer := bearer s;
     slug := slug s; chapter_nb := chapter_nb s; files := f; locked := locked s;
     trace := trace s |}.
Definition set_trace (t : list event) (s : state) : state :=
  {| url := url s; cache_folder := cache_folder s; headers := headers s; bearer := bearer s;
     slug := slug s; chapter_nb := chapter_nb s; files := files s; locked := locked s;
     trace := t |}.

(** *** Code that reads and writes the world *)

Definition M (A : Type) : Type := state → state * result A.

Definition ret {A} (a : A) : M A := λ s, (s, Ok a).

Definition bind {A B} (m : M A) (k : A → M B) : M B :=
  λ s, match m s with
       | (s', Ok a) => k a s'
       | (s', Raise e) => (s', Raise e)
       | (s', OutOfFuel) => (s', OutOfFuel)
       end.

Notation "'let*' x ':=' m 'in' k" := (bind m (λ x, k))
  (at level 10, x pattern, m at level 100, k at level 200).
Notation "m ;; k" := (bind m (λ _, k)) (at level 100, k at level 200, right associativity).

Definition lift {A} (r : result A) : M A := λ s, (s, r).

Definition of_sum {A} (x : exn + A) : result A :=
  match x with
  | inl e => Raise e
  | inr a => Ok a
  end.

Definition read {A} (f : state → A) : M A := λ s, (s, Ok (f s)).

Definition modify (f : state → state) : M unit := λ s, (f s, Ok tt).

(** [try: m except Exception: h] *)
Definition catch {A} (m : M A) (h : M A) : M A :=
  λ s, match m s with
       | (s', Raise _) => h s'
       | other => other
       end.

Section Effects.
Variable E : environment.

(** [input(...)] and [getpass(...)] *)
Definition ask (masked : bool) : M string :=
  λ s, let t := trace s ++ [Prompt masked] in (set_trace t s, of_sum (console E t)).

(** [requests.post(url, headers=self.headers, json=body, ...)] *)
Definition post (u : string) (body : request) : M response :=
  λ s, let t := trace s ++ [Post u (headers s) body] in (set_trace t s, of_sum (server E t)).

(** Modelled from the spec: [tools.http_post], which is not part of the
    sources at hand, is the generic HTTP POST helper with built-in retry;
    it is one exchange with the backend that yields a response (or
    raises). *)
Definition http_post (u : string) (body : request) : M response := post u body.

(** *** Token cache *)

Definition cache_file : string := "TOKEN_MANGAS_IO".

(** [f"{self.config.cache_folder or 'cache'}/{self.cache_file}"] *)
Definition file_token (s : state) : string :=
  match cache_folder s with
  | Some f => if String.eqb f "" then "cache" else f
  | None => "cache"
  end +:+ "/" +:+ cache_file.

(** [f.read()] on a file opened in text mode; a file missing is no error:
    the token held stays. *)
Definition read_token : M unit :=
  λ s, match files s !! file_token s with
       | Some content => (set_bearer (PStr (universal_newlines content)) s, Ok tt)
       | None => (s, Ok tt)
       end.

(** [os.makedirs] or [open(.., "w")] raise [OSError] on a path of
    [locked]; [open] empties the file before [f.write] looks at the token,
    and [f.write] takes a [str] only. *)
Definition write_token (token : pyval) : M unit :=
  λ s, let p := file_token s in
       if decide (p ∈ locked s) then (s, Raise OSError)
       else match token with
            | PStr t => (set_files (<[p := t]> (files s)) s, Ok tt)
            | _ => (set_files (<[p := ""]> (files s)) s, Raise TypeError)
            end.

(** *** Token validator *)

Definition validation_url : string := "https://api.mangas.io/auth/token_validation".
Definition login_url : string := "https://api.mangas.io/auth/login".
Definition api_url : string := "https://api.mangas.io/api".

Definition is_token_valid : M bool :=
  λ s, if negb (truthy (bearer s)) then (s, Ok false)
       else
         match post validation_url (TokenValidation (bearer s)) s with
         | (s1, Raise RequestException) => (s1, Ok false)
         | (s1, Raise e) => (s1, Raise e)
         | (s1, OutOfFuel) => (s1, OutOfFuel)
         | (s1, Ok resp) =>
             if negb (status_code resp =? 200)%Z then (s1, Ok false)
             else (s1, let? body := of_sum (json resp) in
                       let? status := get body "status" in
                       Ok (eqb status (PStr "success")))
         end.

(** *** Login client *)

Definition get_bearer : M pyval :=
  let* login_email := ask false in
  let* password := ask true in
  let* resp := post login_url (Login login_email password) in
  if negb (status_code resp =? 200)%Z then ret (PStr "")
  else lift (let? body := of_sum (json resp) in getitem body "token").

(** *** Session manager *)

(** [while not self.is_token_valid(): self.bearer = self.get_bearer()],
    at most [fuel] tests of the condition. *)
Fixpoint validate_loop (fuel : nat) : M unit :=
  match fuel with
  | O => lift OutOfFuel
  | S fuel' =>
      let* valid := is_token_valid in
      if valid then ret tt
      else
        let* b := get_bearer in
        modify (set_bearer b) ;;
        validate_loop fuel'
  end.

Definition authenticate (fuel : nat) : M unit :=
  read_token ;;
  validate_loop fuel ;;
  let* b := read bearer in
  write_token b ;;
  modify (λ s, set_headers (<["authorization" := "Bearer " +:+ str (bearer s)]> (headers s)) s).

End Effects.

(** *** Metadata resolver *)

Definition not_slash (c : ascii) : bool := negb (Ascii.eqb c "/").
Definition digit_or_dot (c : ascii) : bool := is_digit c || Ascii.eqb c ".".

(** [https://www\.mangas\.io/lire/([^/]+)/([\d\.]+)] *)
Definition URL_PATTERN : regex :=
  Seq (lit "https://www.mangas.io/lire/")
    (Seq (Group (Plus (Chars not_slash)))
       (Seq (lit "/") (Group (Plus (Chars digit_or_dot))))).

Definition is_valid_url (u : string) : bool :=
  match matches URL_PATTERN u with
  | Some _ => true
  | None => false
  end.

(** The tuple assignment stores both groups before [float] runs, so a
    [ValueError] leaves the slug set and the chapter number a [str]. *)
Definition _parse_url : M unit :=
  λ s, if negb (String.eqb (slug s) "") then (s, Ok tt)
       else
         match search URL_PATTERN (url s) with
         | Some [g1; g2] =>
             let s1 := set_chapter_nb (ChStr g2) (set_slug g1 s) in
             match float_of_string g2 with
             | Ok f => (set_chapter_nb (ChFloat f) s1, Ok tt)
             | Raise e => (s1, Raise e)
             | OutOfFuel => (s1, OutOfFuel)
             end
         | Some _ => (s, Raise ValueError)
         | None => (s, Ok tt)
         end.

Inductive ReadDirection : Set := LTOR | RTOL.

(** Modelled from the spec: [BookInfos] is the host-defined book record
    ([book_infos.py] is not part of the sources at hand); these are the
    fields the plugin fills. A field the plugin leaves out keeps its
    default, which is empty; the custom data is absent by default. *)
Record BookInfos : Type := {
  title : pyval;
  pages : pyval;
  authors : string;
  volume : string;
  chapter : string;
  description : pyval;
  read_direction : ReadDirection;
  page_urls : list string;
  custom_fields : option (list (string * pydict));
}.

(** [BookInfos(title="", pages=0)] *)
Definition empty_infos : BookInfos :=
  {| title := PStr ""; pages := PInt 0; authors := ""; volume := ""; chapter := "";
     description := PStr ""; read_direction := LTOR; page_urls := [];
     custom_fields := None |}.

(** The inner [for c in v["chapters"]]: [break] leaves this loop only. *)
Fixpoint scan_chapters (chapter_id v : pyval) (cs : list pyval) (acc : string * pyval)
    : result (string * pyval) :=
  match cs with
  | [] => Ok acc
  | c :: cs' =>
      let? cid := getitem c "_id" in
      if eqb cid chapter_id then
        let? number := getitem v "number" in
        let? desc := getitem v "description" in
        Ok (str number, desc)
      else scan_chapters chapter_id v cs' acc
  end.

(** The outer [for v in manga_data["volumes"]]: it runs to the end of the
    list, whatever the inner loop found. *)
Fixpoint scan_volumes (chapter_id : pyval) (vs : list pyval) (acc : string * pyval)
    : result (string * pyval) :=
  match vs with
  | [] => Ok acc
  | v :: vs' =>
      let? chapters := getitem v "chapters" in
      let? cs := iter chapters in
      let? acc' := scan_chapters chapter_id v cs acc in
      scan_volumes chapter_id vs' acc'
  end.

(** [[author["name"] for author in ...]] *)
Fixpoint author_names (l : list pyval) : result (list pyval) :=
  match l with
  | [] => Ok []
  | a :: l' =>
      let? name := getitem a "name" in
      let? names := author_names l' in
      Ok (name :: names)
  end.

(** [{page["number"]: page["_id"] for page in ...}], item by item. *)
Fixpoint build_pages_map (ps : list pyval) (m : pydict) : result pydict :=
  match ps with
  | [] => Ok m
  | page :: ps' =>
      let? number := getitem page "number" in
      let? id := getitem page "_id" in
      let? m' := dict_setitem number id m in
      build_pages_map ps' m'
  end.

Definition _fill_infos (data : pyval) : result BookInfos :=
  let? top := getitem data "data" in
  let? manga_data := getitem top "manga" in
  let? title := getitem manga_data "title" in
  let? direction := getitem manga_data "direction" in
  let rtl := eqb direction (PStr "rtl") in
  let? authors_data := getitem manga_data "authors" in
  let? authors_list := iter authors_data in
  let? names := author_names authors_list in
  let? authors := join ", " names in
  let? chapter_data := getitem manga_data "chapter" in
  let? chapter_id := getitem chapter_data "_id" in
  let? volumes := getitem manga_data "volumes" in
  let? vs := iter volumes in
  let? (volume_number, volume_desc) := scan_volumes chapter_id vs ("", PStr "") in
  let? number := getitem chapter_data "number" in
  let chapter_number := str number in
  let? page_count := getitem chapter_data "pageCount" in
  let? pages_data := getitem chapter_data "pages" in
  let? pages_map :=
    if truthy pages_data then
      let? ps := iter pages_data in build_pages_map ps []
    else Ok [] in
  let page_urls := repeat "" (length pages_map) in
  let read_direction := if rtl then RTOL else LTOR in
  Ok {| title := title; pages := page_count; authors := authors;
        volume := volume_number; chapter := chapter_number;
        description := volume_desc; read_direction := read_direction;
        page_urls := page_urls;
        custom_fields := Some [("pages_map", pages_map)] |}.

Section Resolvers.
Variable E : environment.

Definition get_book_infos : M BookInfos :=
  _parse_url ;;
  let* nb := read chapter_nb in
  let* sl := read slug in
  let* resp := http_post E api_url (GetReadingChapter sl nb) in
  if negb (status_code resp =? 200)%Z then ret empty_infos
  else
    let* data := lift (of_sum (json resp)) in
    if negb (truthy data) then ret empty_infos
    else
      let* top := lift (get data "data") in
      if negb (truthy top) then ret empty_infos
      else lift (_fill_infos data).

(** *** Page resolver: the body run under [async with self.sem] *)

Definition before_download_page (page_num : Z) (_url : string) : M pyval :=
  let* book_infos := get_book_infos in
  match custom_fields book_infos with
  | None => ret (PStr "")
  | Some fields =>
      match assoc "pages_map" fields with
      | None => ret (PStr "")
      | Some pages_map =>
          let page_id :=
            match dict_get (PInt (page_num + 1)) pages_map with
            | Some id => id
            | None => PNone
            end in
          if negb (truthy page_id) then ret (PStr "")
          else
            catch
              (let* resp := http_post E api_url (GetPageById page_id) in
               if negb (status_code resp =? 200)%Z then ret (PStr "")
               else
                 lift (let? data := of_sum (json resp) in
                       let? top := getitem data "data" in
                       let? page := getitem top "page" in
                       let? image := getitem page "image" in
                       getitem image "url"))
              (ret (PStr ""))
      end
  end.

End Resolvers.

End MangasIo.

(** ** The semaphore around page resolution *)

Module Gate.

(** Where a call of [before_download_page] stands. The event loop runs one
    coroutine at a time and switches only where a coroutine awaits: at
    [async with self.sem] and at [await asyncio.to_thread(fetch_url)]. *)
Inductive pc : Set :=
| Called      (* created, not yet at [async with self.sem] *)
| Queued      (* suspended in [sem.acquire()], its future pending *)
| Granted     (* its future done by a [release]: it has the permit and
                 waits for the event loop to resume it *)
| Resolving   (* in the body: metadata fetch and table lookup *)
| Fetching    (* in the body: awaiting the page-URL request *)
| Returned.   (* left the body, by [return] or by an exception *)

(** [sem] is one object for the class: its counter [_value] and its deque
    [_waiters], each waiter named by the call that waits; [calls] are all
    the calls made. *)
Record gate : Set := { value : nat; waiters : list nat; calls : list pc }.

(** What the event loop lets a call do next. *)
Inductive action : Set :=
| Acquire   (* [__aenter__]: run [acquire()] up to its await, or resume it *)
| Await     (* reach [await asyncio.to_thread(...)] *)
| Release.  (* [__aexit__]: [release()] *)

Definition in_body (p : pc) : bool :=
  match p with
  | Resolving | Fetching => true
  | _ => false
  end.

(** How many calls are inside the body. *)
Fixpoint running (l : list pc) : nat :=
  match l with
  | [] => 0
  | p :: l' => (if in_body p then 1 else 0) + running l'
  end.

(** A call has the permit from the moment it was handed to it. *)
Definition weight (p : pc) : nat :=
  match p with
  | Granted | Resolving | Fetching => 1
  | _ => 0
  end.

Fixpoint held (l : list pc) : nat :=
  match l with
  | [] => 0
  | p :: l' => weight p + held l'
  end.

(** The permits left and the permits held add up to the one permit the
    semaphore was built with. *)
Definition balanced (g : gate) : Prop := value g + held (calls g) = 1.

(** The future of call [j] is not done. *)
Definition pending (l : list pc) (j : nat) : bool :=
  match l !! j with
  | Some Queued => true
  | _ => false
  end.

(** [Semaphore.locked()]; no waiter is ever cancelled here. *)
Definition locked (g : gate) : bool :=
  Nat.eqb (value g) 0 || negb (Nat.eqb (length (waiters g)) 0).

(** [Semaphore._wake_up_next()]: the first waiter whose future is not done
    takes the permit with it. *)
Definition _wake_up_next (g : gate) : gate :=
  match List.find (pending (calls g)) (waiters g) with
  | Some j =>
      {| value := value g - 1; waiters := waiters g; calls := <[j := Granted]> (calls g) |}
  | None => g
  end.

(** One move of call [i]; a move that the call cannot make leaves the
    gate as it is. [acquire()] returns at once when the semaphore is not
    locked and lines up otherwise; a call that was handed the permit
    leaves the deque when it resumes. [release()] adds the permit and
    hands it to the first waiter, if there is one. *)
Definition step (a : action) (i : nat) (g : gate) : gate :=
  match calls g !! i with
  | None => g
  | Some p =>
      match a, p with
      | Acquire, Called =>
          if locked g
          then {| value := value g; waiters := waiters g ++ [i];
                  calls := <[i := Queued]> (calls g) |}
          else {| value := value g - 1; waiters := waiters g;
                  calls := <[i := Resolving]> (calls g) |}
      | Acquire, Granted =>
          let g' := {| value := value g; waiters := filter (λ j, j ≠ i) (waiters g);
                       calls := <[i := Resolving]> (calls g) |} in
          if 0 <? value g' then _wake_up_next g' else g'
      | Await, Resolving =>
          {| value := value g; waiters := waiters g; calls := <[i := Fetching]> (calls g) |}
      | Release, (Resolving | Fetching) =>
          _wake_up_next {| value := S (value g); waiters := waiters g;
                           calls := <[i := Returned]> (calls g) |}
      | _, _ => g
      end
  end.

(** [asyncio.Semaphore(1)] and [n] calls made by the orchestrator. *)
Definition init (n : nat) : gate :=
  {| value := 1; waiters := []; calls := replicate n Called |}.

(** A schedule: which call moves, and how, in order. *)
Fixpoint run (sched : list (action * nat)) (g : gate) : gate :=
  match sched with
  | [] => g
  | (a, i) :: sched' => run sched' (step a i g)
  end.

(** The deque holds exactly the calls that wait or were just handed the
    permit, and nobody waits while a permit is left. *)
Definition orderly (g : gate) : Prop :=
  (∀ j, j ∈ waiters g → calls g !! j = Some Queued ∨ calls g !! j = Some Granted)
  ∧ (∀ j, calls g !! j = Some Queued → j ∈ waiters g)
  ∧ (0 < value g → waiters g = []).

(** The moves of one call from the gate to its return, and the schedule
    that lets [m] calls, from call [i] on, run one after the other. *)
Definition one_call (i : nat) : list (action * nat) :=
  [(Acquire, i); (Await, i); (Release, i)].

Fixpoint serial_from (i m : nat) : list (action * nat) :=
  match m with
  | O => []
  | S m' => one_call i ++ serial_from (S i) m'
  end.

End Gate.

(** ** Vocabulary of the properties *)

Module Props.
Import Py Float64 Regex MangasIo.

(** Every call of [get_bearer] opens with the visible prompt; a history
    shows as many calls as it holds such prompts. *)
Fixpoint get_bearer_calls (t : list event) : nat :=
  match t with
  | [] => 0
  | Prompt false :: t' => S (get_bearer_calls t')
  | _ :: t' => get_bearer_calls t'
  end.

(** The exchange [is_token_valid] makes for the token held in [s]. *)
Definition probe (s : state) : list event :=
  trace s ++ [Post validation_url (headers s) (TokenValidation (bearer s))].

(** [logins_until_valid E k s s']: from [s] the validator rejects [k]
    tokens in a row, each followed by a login that returns the next
    candidate, and then accepts the token held, in world [s']. *)
Inductive logins_until_valid (E : environment) : nat → state → state → Prop :=
| luv_accept s s' :
    is_token_valid E s = (s', Ok true) →
    logins_until_valid E 0 s s'
| luv_login k s s1 s2 b s' :
    is_token_valid E s = (s1, Ok false) →
    get_bearer E s1 = (s2, Ok b) →
    logins_until_valid E k (set_bearer b s2) s' →
    logins_until_valid E (S k) s s'.

(** The world right after [read_token]. *)
Definition loaded (s : state) : state := (read_token s).1.

(** What [authenticate] does once its loop is over. *)
Definition install : M unit :=
  let* b := read bearer in
  write_token b ;;
  modify (λ s, set_headers (<["authorization" := "Bearer " +:+ str (bearer s)]> (headers s)) s).

(** How many [getPageById] requests a history holds. *)
Fixpoint page_requests (t : list event) : nat :=
  match t with
  | [] => 0
  | Post _ _ (GetPageById _) :: t' => S (page_requests t')
  | _ :: t' => page_requests t'
  end.

(** The exchange [get_book_infos] makes once the URL is parsed. *)
Definition metadata_query (s : state) : list event :=
  trace s ++ [Post api_url (headers s) (GetReadingChapter (slug s) (chapter_nb s))].

(** What [get_book_infos] does with the answer of the backend. *)
Definition digest (resp : response) : result BookInfos :=
  if negb (status_code resp =? 200)%Z then Ok empty_infos
  else
    let? data := of_sum (json resp) in
    if negb (truthy data) then Ok empty_infos
    else
      let? top_data := get data "data" in
      if negb (truthy top_data) then Ok empty_infos
      else _fill_infos data.

(** A member of the series object of a metadata payload, and a member of
    its target chapter. *)
Definition manga_field (data : pyval) (field : string) : result pyval :=
  let? top := getitem data "data" in
  let? manga_data := getitem top "manga" in
  getitem manga_data field.

Definition chapter_field (data : pyval) (field : string) : result pyval :=
  let? chapter_data := manga_field data "chapter" in
  getitem chapter_data field.

(** Does the chapter list [cs] hold the id; does volume [v] hold it. *)
Definition has_chapter (chapter_id : pyval) (cs : list pyval) : bool :=
  existsb (λ c, match getitem c "_id" with
                | Ok i => eqb i chapter_id
                | _ => false
                end) cs.

Definition holds_chapter (chapter_id v : pyval) : bool :=
  match getitem v "chapters" with
  | Ok chapters =>
      match iter chapters with
      | Ok cs => has_chapter chapter_id cs
      | _ => false
      end
  | _ => false
  end.

(** The first and the last volume of [vs] that hold the chapter id. *)
Definition first_holder (chapter_id : pyval) (vs : list pyval) : option pyval :=
  List.find (holds_chapter chapter_id) vs.

Definition last_holder (chapter_id : pyval) (vs : list pyval) : option pyval :=
  List.find (holds_chapter chapter_id) (rev vs).

(** The number (as text) and the description of a volume. *)
Definition volume_fields (v : pyval) : option (string * pyval) :=
  match getitem v "number", getitem v "description" with
  | Ok n, Ok d => Some (str n, d)
  | _, _ => None
  end.

(** The Page Identifier Table attached to a result, if any. *)
Definition table_of (infos : BookInfos) : option pydict :=
  match custom_fields infos with
  | Some fields => assoc "pages_map" fields
  | None => None
  end.

(** The id the table holds for page number [n]; [None] without a table or
    without that key. *)
Definition table_lookup (infos : BookInfos) (n : Z) : option pyval :=
  match table_of infos with
  | Some t => dict_get (PInt n) t
  | None => None
  end.

(** The id of the last page of [ps] whose number equals [k]. *)
Fixpoint last_id (k : pyval) (ps : list pyval) : option pyval :=
  match ps with
  | [] => None
  | p :: ps' =>
      match last_id k ps' with
      | Some i => Some i
      | None =>
          match getitem p "number", getitem p "_id" with
          | Ok n, Ok i => if eqb n k then Some i else None
          | _, _ => None
          end
      end
  end.

(** No two pages of [ps] carry equal numbers. *)
Fixpoint numbers_distinct (ps : list pyval) : Prop :=
  match ps with
  | [] => True
  | p :: ps' =>
      (∀ n p' n', getitem p "number" = Ok n → p' ∈ ps' →
                  getitem p' "number" = Ok n' → eqb n n' = false)
      ∧ numbers_distinct ps'
  end.

(** Every key of a dict is hashable. *)
Definition keys_hashable (d : pydict) : Prop :=
  Forall (λ kv, hashable kv.1 = true) d.

(** The float 12.5, which is 25 * 2^-1. *)
Definition twelve_and_a_half : float64 := Finite 25 (-1).

(** [n] further calls of [_parse_url]. *)
Fixpoint parse_again (n : nat) (s : state) : state :=
  match n with
  | O => s
  | S n' => parse_again n' (_parse_url s).1
  end.

(** Every character of [s] is in the class [p]; [s] starts with one. *)
Fixpoint all_chars (p : ascii → bool) (s : string) : bool :=
  match s with
  | EmptyString => true
  | String c s' => p c && all_chars p s'
  end.

Definition starts_in (p : ascii → bool) (s : string) : bool :=
  match s with
  | String c _ => p c
  | EmptyString => false
  end.

(** A reader address: the fixed prefix, a slug, a slash, a chapter
    segment, and whatever follows. *)
Definition reader_prefix : string := "https://www.mangas.io/lire/".

Definition reader_address (g c rest : string) : string :=
  reader_prefix +:+ g +:+ "/" +:+ c +:+ rest.

(** How many dots a text holds; whether it holds a digit. *)
Fixpoint dots (s : string) : nat :=
  match s with
  | EmptyString => 0
  | String c s' => (if Ascii.eqb c "." then 1 else 0) + dots s'
  end.

Fixpoint has_digit (s : string) : bool :=
  match s with
  | EmptyString => false
  | String c s' => is_digit c || has_digit s'
  end.

(** The instance after the tuple assignment of [_parse_url], before
    [float] has run. *)
Definition half_parsed (g c : string) (s : state) : state :=
  set_chapter_nb (ChStr c) (set_slug g s).

(** The url member a [getPageById] payload holds under data, page and
    image. *)
Definition image_url (data : pyval) : result pyval :=
  let? top_data := getitem data "data" in
  let? page := getitem top_data "page" in
  let? image := getitem page "image" in
  getitem image "url".

(** The exchange the page resolver makes for a page id, from the world the
    metadata fetch left. *)
Definition page_request (s1 : state) (id : pyval) : list event :=
  trace s1 ++ [Post api_url (headers s1) (GetPageById id)].

(** A token sent to the validator is one that counts as held. *)
Definition sound_probe (e : event) : bool :=
  match e with
  | Post _ _ (TokenValidation tok) => truthy tok
  | _ => true
  end.

(** The history of one login: the two prompts and the request that carries
    what was typed. *)
Definition login_exchange (s : state) (email password : string) : list event :=
  trace s ++ [Prompt false; Prompt true; Post login_url (headers s) (Login email password)].

End Props.

(** ** Concrete worlds *)

Module Scenarios.
Import Py Float64 Regex MangasIo Props.

(** A plugin just built for [u], with an empty cache folder. *)
Definition start (u : string) : state :=
  {| url := u; cache_folder := None; headers := ∅; bearer := PStr "";
     slug := ""; chapter_nb := ChFloat (Finite 0 0);
     files := ∅; locked := ∅; trace := [] |}.

Definition answer (code : Z) (body : pyval) : exn + response :=
  inr {| status_code := code; json := inr body |}.

(** A backend that knows one live token and hands it out at login, and an
    operator who types the same text at both prompts. *)
Definition live_token : string := "tok-live".

Definition session_backend (t : list event) : exn + response :=
  match last t with
  | Some (Post _ _ (TokenValidation tok)) =>
      answer 200
        (PDict [("status", PStr (if eqb tok (PStr live_token) then "success" else "expired"))])
  | Some (Post _ _ (Login _ _)) => answer 200 (PDict [("token", PStr live_token)])
  | _ => inl RequestException
  end.

Definition session_env : environment :=
  {| console := λ _, inr "reader"; server := session_backend |}.

(** The plugin with [tok] in its cache file. *)
Definition cached (tok : string) : state :=
  set_files {[ "cache/TOKEN_MANGAS_IO" := tok ]} (start "").

(** A backend that gives the same answer to every request. *)
Definition fixed_env (r : exn + response) : environment :=
  {| console := λ _, inr ""; server := λ _, r |}.

Definition reader_url : string := "https://www.mangas.io/lire/demo-slug/3".

(** Payloads of [getReadingChapter] in the shape the query asks for. *)
Definition page (n : Z) (id : string) : pyval :=
  PDict [("_id", PStr id); ("number", PInt n); ("__typename", PStr "Page")].

Definition volume_entry (n : Z) (desc : string) (chapter_ids : list string) : pyval :=
  PDict [("_id", PStr ("v" +:+ pretty n)); ("number", PInt n); ("description", PStr desc);
         ("chapters",
          PList (map (λ c, PDict [("_id", PStr c); ("title", PNone); ("number", PInt 1);
                                  ("__typename", PStr "Chapter")]) chapter_ids));
         ("__typename", PStr "Volume")].

(** The target chapter has id [c3]. *)
Definition reading_chapter (direction : string) (volumes : list pyval)
    (page_count : Z) (pages : list pyval) : pyval :=
  PDict [("data",
    PDict [("manga",
      PDict [("_id", PStr "m1"); ("title", PStr "Demo"); ("direction", PStr direction);
             ("authors", PList [PDict [("name", PStr "Ann"); ("__typename", PStr "Author")];
                                PDict [("name", PStr "Bob"); ("__typename", PStr "Author")]]);
             ("volumes", PList volumes);
             ("chapter",
              PDict [("_id", PStr "c3"); ("number", PInt 3); ("title", PStr "Three");
                     ("pageCount", PInt page_count); ("pages", PList pages);
                     ("__typename", PStr "Chapter")]);
             ("__typename", PStr "Manga")])])].

(** The chapter sits in two volumes. *)
Definition volume_one : pyval := volume_entry 1 "first" ["c1"; "c3"].
Definition volume_two : pyval := volume_entry 2 "second" ["c3"; "c4"].

Definition two_volumes : pyval :=
  reading_chapter "ltr" [volume_one; volume_two] 2 [page 1 "a"; page 2 "b"].

(** Two pages carry the number 1. *)
Definition repeated_number : pyval :=
  reading_chapter "ltr" [volume_entry 1 "first" ["c3"]] 1 [page 1 "a"; page 1 "b"].

(** The example of the specification: pages (1, a) and (2, b). *)
Definition two_pages : pyval :=
  reading_chapter "rtl" [volume_entry 1 "first" ["c3"]] 2 [page 1 "a"; page 2 "b"].

(** The plugin built for the reader URL. *)
Definition reader : state := start reader_url.

(** A backend whose answer to every request is a JSON array. *)
Definition array_payload : pyval := PList [PInt 1].
Definition array_env : environment := fixed_env (answer 200 array_payload).

(** A backend that serves the chapter of [two_pages] and knows the image
    of every page id. *)
Definition image_of (id : pyval) : pyval :=
  PDict [("data",
    PDict [("page",
      PDict [("image", PDict [("url", PStr ("https://cdn.mangas.io/" +:+ str id))])])])].

Definition library_backend (t : list event) : exn + response :=
  match last t with
  | Some (Post _ _ (GetReadingChapter _ _)) => answer 200 two_pages
  | Some (Post _ _ (GetPageById id)) => answer 200 (image_of id)
  | _ => inl RequestException
  end.

Definition library_env : environment :=
  {| console := λ _, inr ""; server := library_backend |}.

(** A backend that serves the chapter of [two_pages] and fails every page
    request with status 503. *)
Definition flaky_backend (t : list event) : exn + response :=
  match last t with
  | Some (Post _ _ (GetReadingChapter _ _)) => answer 200 two_pages
  | _ => answer 503 PNone
  end.

Definition flaky_env : environment :=
  {| console := λ _, inr ""; server := flaky_backend |}.

(** A chapter whose only page has an empty id. *)
Definition blank_id : pyval :=
  reading_chapter "ltr" [volume_entry 1 "first" ["c3"]] 1 [page 1 ""].

(** A backend that answers every request with status 500. *)
Definition failing_env : environment := fixed_env (answer 500 PNone).

(** The plugin with [tok] in its cache file, which cannot be rewritten. *)
Definition sealed (tok : string) : state :=
  {| url := ""; cache_folder := None; headers := ∅; bearer := PStr "";
     slug := ""; chapter_nb := ChFloat (Finite 0 0);
     files := {[ "cache/TOKEN_MANGAS_IO" := tok ]};
     locked := {[ "cache/TOKEN_MANGAS_IO" ]}; trace := [] |}.

(** A backend whose login hands out a token with a carriage return in it,
    and which accepts that token. *)
Definition cr_token : string := String "t" (String "013" "k").
Definition lf_token : string := String "t" (String "010" "k").

Definition cr_backend (t : list event) : exn + response :=
  match last t with
  | Some (Post _ _ (TokenValidation tok)) =>
      answer 200
        (PDict [("status", PStr (if eqb tok (PStr cr_token) then "success" else "expired"))])
  | Some (Post _ _ (Login _ _)) => answer 200 (PDict [("token", PStr cr_token)])
  | _ => inl RequestException
  end.

Definition cr_env : environment :=
  {| console := λ _, inr "reader"; server := cr_backend |}.

End Scenarios.

(** ** Lemmas: Python values *)

Section Values.
Import Py.

Lemma rbind_inv_ok {A B} (r : result A) (k : A → result B) b :
  rbind r k = Ok b → ∃ a, r = Ok a ∧ k a = Ok b.
Proof. destruct r as [a| |]; simpl; [eauto|done|done]. Qed.

Ltac eqb_cases :=
  repeat match goal with
         | |- context [(?x =? ?y)%Z] => destruct (Z.eqb_spec x y)
         | |- context [String.eqb ?x ?y] => destruct (String.eqb_spec x y)
         | H : context [(?x =? ?y)%Z] |- _ => destruct (Z.eqb_spec x y)
         | H : context [String.eqb ?x ?y] |- _ => destruct (String.eqb_spec x y)
         end.

(** On hashable values [==] is an equivalence, which is what a dict needs
    of its keys. *)
Lemma eqb_refl a : hashable a = true → eqb a a = true.
Proof.
  destruct a as [|[]| | | |]; cbn -[Z.eqb String.eqb]; try done; intros _; by eqb_cases.
Qed.

Lemma eqb_sym a b : hashable a = true → hashable b = true → eqb a b = eqb b a.
Proof.
  destruct a as [|[]| | | |], b as [|[]| | | |];
    cbn -[Z.eqb String.eqb]; try done; intros _ _; eqb_cases; congruence.
Qed.

Lemma eqb_trans a b c :
  hashable a = true → hashable b = true → hashable c = true →
  eqb a b = true → eqb b c = true → eqb a c = true.
Proof.
  destruct a as [|[]| | | |], b as [|[]| | | |], c as [|[]| | | |];
    cbn -[Z.eqb String.eqb]; try done; intros _ _ _; eqb_cases; congruence.
Qed.

Lemma dict_set_keys k v d :
  hashable k = true → Props.keys_hashable d → Props.keys_hashable (dict_set k v d).
Proof.
  intros Hk. unfold Props.keys_hashable.
  induction 1 as [|[k0 v0] d Hk0 Hd IH]; simpl.
  - by repeat constructor.
  - destruct (eqb k0 k); constructor; done.
Qed.

(** Reading a dict after a store. *)
Lemma dict_get_set k k' v d :
  Props.keys_hashable d → hashable k' = true → hashable k = true →
  dict_get k (dict_set k' v d) = if eqb k' k then Some v else dict_get k d.
Proof.
  intros Hd Hk' Hk. induction Hd as [|[k0 v0] d Hk0 Hd IH]; simpl; [done|].
  simpl in Hk0.
  destruct (eqb k0 k') eqn:H0'; simpl.
  - destruct (eqb k' k) eqn:H'k.
    + by rewrite (eqb_trans k0 k' k).
    + destruct (eqb k0 k) eqn:H0k; [|done].
      rewrite (eqb_trans k' k0 k) in H'k; [done..| |done].
      by rewrite eqb_sym.
  - rewrite IH. destruct (eqb k0 k) eqn:H0k; [|done].
    destruct (eqb k' k) eqn:H'k; [|done].
    rewrite (eqb_trans k0 k k') in H0'; [done..|].
    by rewrite eqb_sym.
Qed.

Lemma dict_set_length_new k v d :
  dict_get k d = None → length (dict_set k v d) = S (length d).
Proof.
  induction d as [|[k0 v0] d IH]; simpl; [done|].
  destruct (eqb k0 k); [done|]. intros H. simpl. by rewrite IH.
Qed.

(** What was read in text mode holds no carriage return. *)
Lemma universal_newlines_has_no_cr t : has_cr (universal_newlines t) = false.
Proof.
  enough (H : has_cr (universal_newlines t) = false
              ∧ ∀ c, has_cr (universal_newlines (String c t)) = false) by apply H.
  induction t as [|x t [IH1 IH2]].
  - split; [done|]. intros c. simpl. by destruct (Ascii.eqb c "013") eqn:Hc; simpl; rewrite ?Hc.
  - split; [apply IH2|]. intros c. cbn [universal_newlines].
    destruct (Ascii.eqb c "013") eqn:Hc.
    + cbn [has_cr]. simpl (Ascii.eqb "010" "013"). cbn [orb].
      destruct (Ascii.eqb x "010"); [exact IH1|apply IH2].
    + cbn [has_cr]. rewrite Hc. cbn [orb]. apply IH2.
Qed.

(** A text without carriage return is read as it is, and no other. *)
Lemma universal_newlines_fixed t : universal_newlines t = t ↔ has_cr t = false.
Proof.
  split.
  - intros <-. apply universal_newlines_has_no_cr.
  - induction t as [|c t IH]; [done|]. cbn [has_cr universal_newlines].
    intros [-> Ht]%orb_false_iff. by rewrite IH.
Qed.

End Values.

(** ** Lemmas: session handling *)

Section Session.
Import Py Float64 Regex MangasIo Props Scenarios.
Variable E : environment.

Lemma bind_ok {A B} (m : M A) (k : A → M B) s s' a :
  m s = (s', Ok a) → bind m k s = k a s'.
Proof. intros H. unfold bind. by rewrite H. Qed.

Lemma get_bearer_calls_app t1 t2 :
  get_bearer_calls (t1 ++ t2) = get_bearer_calls t1 + get_bearer_calls t2.
Proof.
  induction t1 as [|e t1 IH]; simpl; [done|].
  destruct e as [[|]|]; simpl; lia.
Qed.

(** The validator touches nothing but the history, and only when a token
    is held. *)
Lemma is_token_valid_frame s s1 r :
  is_token_valid E s = (s1, r) →
  (s1 = s ∧ r = Ok false ∧ truthy (bearer s) = false)
  ∨ (s1 = set_trace (probe s) s ∧ truthy (bearer s) = true).
Proof.
  unfold is_token_valid, post, probe.
  destruct (truthy (bearer s)); simpl.
  - intros H. right. split; [|done].
    destruct (of_sum _) as [resp|e|]; [destruct (negb _)|destruct e|]; by inversion H.
  - intros H. left. by inversion H.
Qed.

Lemma is_token_valid_calls s s1 r :
  is_token_valid E s = (s1, r) →
  get_bearer_calls (trace s1) = get_bearer_calls (trace s).
Proof.
  intros H. destruct (is_token_valid_frame _ _ _ H) as [(-> & _)|(-> & _)]; [done|].
  unfold probe. simpl. rewrite get_bearer_calls_app. simpl. lia.
Qed.

(** A file in place is what [read_token] leaves in [self.bearer]. *)
Lemma read_token_found s content :
  files s !! file_token s = Some content →
  read_token s = (set_bearer (PStr (universal_newlines content)) s, Ok tt).
Proof. intros H. unfold read_token. by rewrite H. Qed.

(** C1. When [read_token] loads from the cache file a token that the
    validator accepts, [authenticate] never calls [get_bearer] (no login
    prompt is added to the history); when it returns, the headers carry
    [authorization] with the text Bearer, a space and that token; and it
    does return as soon as the cache file can be written. *)
Theorem authenticate_reuses_accepted_token s content tok s1 n :
  files s !! file_token s = Some content →
  tok = universal_newlines content →
  is_token_valid E (set_bearer (PStr tok) s) = (s1, Ok true) →
  get_bearer_calls (trace (authenticate E (S n) s).1) = get_bearer_calls (trace s)
  ∧ ((authenticate E (S n) s).2 = Ok tt →
     headers (authenticate E (S n) s).1 !! "authorization" = Some ("Bearer " +:+ tok))
  ∧ (file_token s ∉ locked s → (authenticate E (S n) s).2 = Ok tt).
Proof.
  intros Hfile Hread Hvalid.
  apply read_token_found in Hfile. rewrite <- Hread in Hfile.
  destruct (is_token_valid_frame _ _ _ Hvalid) as [(_ & Hr & _)|(Hs1 & _)]; [done|].
  assert (Hp : file_token s1 = file_token s) by by rewrite Hs1.
  assert (Hl : locked s1 = locked s) by by rewrite Hs1.
  assert (Hb : bearer s1 = PStr tok) by by rewrite Hs1.
  assert (Hc : get_bearer_calls (trace s1) = get_bearer_calls (trace s)).
  { rewrite Hs1. unfold probe. simpl. rewrite get_bearer_calls_app. simpl. lia. }
  assert (Hloop : validate_loop E (S n) (set_bearer (PStr tok) s) = (s1, Ok tt)).
  { simpl. by rewrite (bind_ok _ _ _ _ _ Hvalid). }
  unfold authenticate.
  rewrite (bind_ok _ _ _ _ _ Hfile).
  rewrite (bind_ok _ _ _ _ _ Hloop).
  unfold read, write_token, modify, bind. rewrite Hb, Hp, Hl.
  destruct (decide (file_token s ∈ locked s)) as [Hin|Hout]; simpl; [done|].
  split; [done|]. split; [|done].
  intros _. by rewrite Hb, lookup_insert_eq.
Qed.


Lemma bind_inv_ok {A B} (m : M A) (k : A → M B) s s' b :
  bind m k s = (s', Ok b) → ∃ s1 a, m s = (s1, Ok a) ∧ k a s1 = (s', Ok b).
Proof.
  unfold bind. destruct (m s) as [s1 [a| |]]; intros H; [eauto|done|done].
Qed.

(** A login adds its one visible prompt to the history and touches nothing
    else of the world. *)
Lemma get_bearer_frame s s2 r :
  get_bearer E s = (s2, r) →
  s2 = set_trace (trace s2) s
  ∧ get_bearer_calls (trace s2) = S (get_bearer_calls (trace s)).
Proof.
  unfold get_bearer, bind, ask, post, ret, lift. simpl.
  destruct (of_sum (console E (trace s ++ [Prompt false]))) as [em| |]; simpl.
  - destruct (of_sum (console E ((trace s ++ [Prompt false]) ++ [Prompt true]))) as [pw| |]; simpl.
    + destruct (of_sum (server E _)) as [resp| |]; simpl;
        [destruct (negb _)| |]; intros H; inversion H; subst; simpl;
        (split; [done|]); rewrite !get_bearer_calls_app; simpl; lia.
    + intros H; inversion H; subst; simpl. split; [done|].
      rewrite !get_bearer_calls_app; simpl; lia.
    + intros H; inversion H; subst; simpl. split; [done|].
      rewrite !get_bearer_calls_app; simpl; lia.
  - intros H; inversion H; subst; simpl. split; [done|].
    rewrite !get_bearer_calls_app; simpl; lia.
  - intros H; inversion H; subst; simpl. split; [done|].
    rewrite !get_bearer_calls_app; simpl; lia.
Qed.

Lemma validate_loop_calls fuel : ∀ s s' r,
  validate_loop E fuel s = (s', r) →
  get_bearer_calls (trace s) ≤ get_bearer_calls (trace s').
Proof.
  induction fuel as [|fuel IH]; intros s s' r; simpl.
  - unfold lift. intros H; inversion H; subst. lia.
  - unfold bind at 1.
    destruct (is_token_valid E s) as [s1 [[|]| |]] eqn:Hv;
      pose proof (is_token_valid_calls _ _ _ Hv) as Hc.
    + unfold ret. intros H; inversion H; subst. lia.
    + unfold bind at 1.
      destruct (get_bearer E s1) as [s2 [b| |]] eqn:Hg;
        destruct (get_bearer_frame _ _ _ Hg) as [_ Hc2].
      * unfold modify, bind. intros H. apply IH in H. simpl in H. lia.
      * intros H; inversion H; subst. lia.
      * intros H; inversion H; subst. lia.
    + intros H; inversion H; subst. lia.
    + intros H; inversion H; subst. lia.
Qed.

(** After a first rejection the loop has called [get_bearer]. *)
Lemma validate_loop_rejected_calls n s s1 :
  is_token_valid E s = (s1, Ok false) →
  S (get_bearer_calls (trace s)) ≤ get_bearer_calls (trace (validate_loop E (S n) s).1).
Proof.
  intros Hv. pose proof (is_token_valid_calls _ _ _ Hv) as Hc.
  simpl. rewrite (bind_ok _ _ _ _ _ Hv).
  unfold bind at 1.
  destruct (get_bearer E s1) as [s2 [b| |]] eqn:Hg;
    destruct (get_bearer_frame _ _ _ Hg) as [_ Hc2]; simpl; [|lia|lia].
  unfold modify, bind.
  destruct (validate_loop E n (set_bearer b s2)) as [s3 r] eqn:Hl.
  apply validate_loop_calls in Hl. simpl in *. lia.
Qed.

Lemma logins_until_valid_run k s sv :
  logins_until_valid E k s sv →
  ∀ fuel, k < fuel → validate_loop E fuel s = (sv, Ok tt).
Proof.
  induction 1 as [s s' Hv|k s s1 s2 b s' Hv Hg _ IH]; intros [|fuel] Hlt; try lia; simpl.
  - by rewrite (bind_ok _ _ _ _ _ Hv).
  - rewrite (bind_ok _ _ _ _ _ Hv), (bind_ok _ _ _ _ _ Hg).
    unfold modify, bind. apply IH. lia.
Qed.

Lemma validate_loop_returns fuel : ∀ s sv,
  validate_loop E fuel s = (sv, Ok tt) →
  ∃ k, k < fuel ∧ logins_until_valid E k s sv.
Proof.
  induction fuel as [|fuel IH]; intros s sv; simpl; [done|].
  intros H. apply bind_inv_ok in H as (s1 & valid & Hv & H).
  destruct valid.
  - inversion H; subst. exists 0. split; [lia|]. by constructor.
  - apply bind_inv_ok in H as (s2 & b & Hg & H).
    unfold modify, bind in H. apply IH in H as (k & Hk & Hrun).
    exists (S k). split; [lia|]. by econstructor.
Qed.

(** The loop changes the token held and the history, nothing else. *)
Lemma logins_until_valid_frame k s sv :
  logins_until_valid E k s sv →
  sv = set_trace (trace sv) (set_bearer (bearer sv) s).
Proof.
  induction 1 as [s s' Hv|k s s1 s2 b s' Hv Hg _ IH].
  - destruct (is_token_valid_frame _ _ _ Hv) as [(-> & _)|(-> & _)]; by destruct s.
  - destruct (get_bearer_frame _ _ _ Hg) as [Hs2 _].
    destruct (is_token_valid_frame _ _ _ Hv) as [(Hs1 & _)|(Hs1 & _)];
      rewrite IH, Hs2, Hs1; by destruct s.
Qed.

(** When at least one login was needed, the token accepted in the end is
    the one the last login returned. *)
Lemma logins_until_valid_last k s sv :
  logins_until_valid E (S k) s sv →
  ∃ sa sb b, get_bearer E sa = (sb, Ok b)
    ∧ is_token_valid E (set_bearer b sb) = (sv, Ok true).
Proof.
  revert s. induction k as [|k IH]; intros s H.
  - inversion H as [|? ? s1 s2 b ? Hv Hg Hrest]; subst.
    inversion Hrest; subst. eauto.
  - inversion H as [|? ? s1 s2 b ? Hv Hg Hrest]; subst. by eapply IH.
Qed.


Lemma read_token_loaded s : read_token s = (loaded s, Ok tt).
Proof. unfold loaded, read_token. by destruct (files s !! file_token s). Qed.

Lemma loaded_frame s : loaded s = set_bearer (bearer (loaded s)) s.
Proof. unfold loaded, read_token. destruct (files s !! file_token s); by destruct s. Qed.

Lemma authenticate_unfold fuel s :
  authenticate E fuel s = bind (validate_loop E fuel) (λ _, install) (loaded s).
Proof. unfold authenticate. by rewrite (bind_ok _ _ _ _ _ (read_token_loaded s)). Qed.

Lemma install_trace s : trace (install s).1 = trace s.
Proof.
  unfold install, read, write_token, modify, bind.
  destruct (decide (file_token s ∈ locked s)); [done|].
  by destruct (bearer s).
Qed.

Lemma install_ok s s' :
  install s = (s', Ok tt) →
  ∃ t, bearer s = PStr t ∧ (file_token s ∉ locked s)
    ∧ s' = set_headers (<["authorization" := "Bearer " +:+ t]> (headers s))
             (set_files (<[file_token s := t]> (files s)) s).
Proof.
  unfold install, read, write_token, modify, bind.
  destruct (decide (file_token s ∈ locked s)); [done|].
  destruct (bearer s) as [| | |t| |] eqn:Hb; try done.
  intros H; inversion H; subst; simpl. rewrite Hb. eauto.
Qed.

Lemma install_runs s t :
  bearer s = PStr t → file_token s ∉ locked s → (install s).2 = Ok tt.
Proof.
  intros Hb Hl. unfold install, read, write_token, modify, bind.
  rewrite Hb. by destruct (decide (file_token s ∈ locked s)).
Qed.

(** C2. When the validator rejects the token loaded from the cache (the
    empty token of a missing file included), [authenticate] calls
    [get_bearer] at least once; whenever it returns, the token it holds
    was returned by [get_bearer] and accepted by the validator, the cache
    file holds it, and a later [read_token] loads it with every carriage
    return (and the line feed after it, if any) read as one line feed:
    exactly it when it holds no carriage return; and it does return once
    the validator accepts the token of a login, provided the cache file
    can be written. *)
Theorem authenticate_logs_in_after_rejection s s1 :
  is_token_valid E (loaded s) = (s1, Ok false) →
  (∀ n, S (get_bearer_calls (trace s))
          ≤ get_bearer_calls (trace (authenticate E (S n) s).1))
  ∧ (∀ fuel s', authenticate E fuel s = (s', Ok tt) →
       ∃ t sa sb sv,
         get_bearer E sa = (sb, Ok (PStr t))
         ∧ is_token_valid E (set_bearer (PStr t) sb) = (sv, Ok true)
         ∧ files s' !! file_token s' = Some t
         ∧ (∀ b, bearer (read_token (set_bearer b s')).1 = PStr (universal_newlines t))
         ∧ (has_cr t = false → ∀ b, bearer (read_token (set_bearer b s')).1 = PStr t))
  ∧ (∀ k sv t fuel,
       logins_until_valid E k (loaded s) sv → bearer sv = PStr t →
       file_token s ∉ locked s → k < fuel →
       (authenticate E fuel s).2 = Ok tt).
Proof.
  intros Hrej. split; [|split].
  - intros n. rewrite authenticate_unfold.
    pose proof (validate_loop_rejected_calls n _ _ Hrej) as Hc.
    assert (Ht : trace (loaded s) = trace s) by (rewrite loaded_frame; done).
    rewrite Ht in Hc. unfold bind.
    destruct (validate_loop E (S n) (loaded s)) as [sv [[]| |]]; simpl in *; try done.
    by rewrite install_trace.
  - intros fuel s' Hret. rewrite authenticate_unfold in Hret.
    apply bind_inv_ok in Hret as (sv & [] & Hloop & Hinst).
    apply validate_loop_returns in Hloop as (k & _ & Hrun).
    apply install_ok in Hinst as (t & Hb & _ & ->).
    destruct k as [|k]; [inversion Hrun; congruence|].
    apply logins_until_valid_last in Hrun as (sa & sb & b & Hg & Hv).
    assert (b = PStr t) as ->.
    { destruct (is_token_valid_frame _ _ _ Hv) as [(-> & _)|(-> & _)]; by rewrite <- Hb. }
    exists t, sa, sb, sv. split; [done|]. split; [done|].
    assert (Hfile : ∀ b, files (set_bearer b (set_headers (<["authorization" := "Bearer " +:+ t]> (headers sv))
                     (set_files (<[file_token sv := t]> (files sv)) sv)))
                  !! file_token sv = Some t).
    { intros b. simpl. by rewrite lookup_insert_eq. }
    split; [exact (Hfile (bearer sv))|].
    assert (Hread : ∀ b, bearer (read_token (set_bearer b (set_headers (<["authorization" := "Bearer " +:+ t]> (headers sv))
                     (set_files (<[file_token sv := t]> (files sv)) sv)))).1
                    = PStr (universal_newlines t)).
    { intros b. unfold read_token.
      change (file_token (set_bearer b _)) with (file_token sv).
      by rewrite Hfile. }
    split; [exact Hread|].
    intros Hcr b. rewrite Hread. f_equal. by apply universal_newlines_fixed.
  - intros k sv t fuel Hrun Hb Hl Hlt. rewrite authenticate_unfold.
    rewrite (bind_ok _ _ _ _ _ (logins_until_valid_run _ _ _ Hrun _ Hlt)).
    apply (install_runs _ t); [done|].
    rewrite (logins_until_valid_frame _ _ _ Hrun), (loaded_frame s). done.
Qed.

(** C3. The validator fails closed: with no token held, with a network
    error on the probe, with a status other than 200, and with a body whose
    status member is not the word success, it returns [False]; it raises
    in none of these cases. *)
Theorem is_token_valid_fails_closed s :
  truthy (bearer s) = false
  ∨ server E (probe s) = inl RequestException
  ∨ (∃ resp, server E (probe s) = inr resp ∧ status_code resp ≠ 200%Z)
  ∨ (∃ resp d, server E (probe s) = inr resp ∧ json resp = inr (PDict d)
       ∧ eqb (default PNone (assoc "status" d)) (PStr "success") = false) →
  (is_token_valid E s).2 = Ok false.
Proof.
  unfold is_token_valid, post. fold (probe s).
  destruct (truthy (bearer s)); simpl; [|done].
  intros [Hb|[Hnet|[(resp & Hr & Hcode)|(resp & d & Hr & Hj & Hst)]]]; [done| | |].
  - by rewrite Hnet.
  - rewrite Hr. simpl. by destruct (Z.eqb_spec (status_code resp) 200).
  - rewrite Hr. simpl. destruct (negb _); [done|]. simpl.
    rewrite Hj. simpl. destruct (assoc "status" d); simpl in *; congruence.
Qed.

End Session.

Section SessionExamples.
Import Py MangasIo Props Scenarios.

Lemma authenticate_reuses_accepted_token_witness :
  get_bearer_calls (trace (authenticate session_env 1 (cached live_token)).1) = 0
  ∧ headers (authenticate session_env 1 (cached live_token)).1 !! "authorization"
    = Some "Bearer tok-live".
Proof.
  destruct (authenticate_reuses_accepted_token session_env (cached live_token)
              live_token live_token _ 0 eq_refl eq_refl eq_refl)
    as (Hcalls & Hheader & Hret).
  split; [exact Hcalls|].
  apply Hheader, Hret. simpl. apply not_elem_of_empty.
Defined.

Lemma authenticate_logs_in_after_rejection_witness :
  1 ≤ get_bearer_calls (trace (authenticate session_env 2 (cached "tok-old")).1)
  ∧ (authenticate session_env 2 (cached "tok-old")).2 = Ok tt.
Proof.
  destruct (authenticate_logs_in_after_rejection session_env (cached "tok-old") _ eq_refl)
    as (Hcalls & _ & Hret).
  split; [exact (Hcalls 1)|].
  eapply (Hret 1 _ live_token 2).
  - eapply luv_login; [reflexivity|reflexivity|].
    apply luv_accept. reflexivity.
  - reflexivity.
  - simpl. apply not_elem_of_empty.
  - lia.
Defined.

(** A login token with a carriage return in it: the validator accepts it,
    [authenticate] returns and the cache file holds it, and yet a later
    [read_token] loads another text, with a line feed in its place. *)
Lemma authenticate_token_not_read_back :
  (authenticate cr_env 2 (start "")).2 = Ok tt
  ∧ get_bearer_calls (trace (authenticate cr_env 2 (start "")).1) = 1
  ∧ bearer (authenticate cr_env 2 (start "")).1 = PStr cr_token
  ∧ files (authenticate cr_env 2 (start "")).1 !! "cache/TOKEN_MANGAS_IO" = Some cr_token
  ∧ bearer (read_token (authenticate cr_env 2 (start "")).1).1 = PStr lf_token
  ∧ PStr lf_token ≠ PStr cr_token.
Proof. vm_compute. repeat split; done. Qed.

(** Without a cache file the empty token is rejected without any exchange,
    one login follows, and the new token is what the cache then holds. *)
Example authenticate_without_cache :
  let out := authenticate session_env 2 (start "") in
  out.2 = Ok tt
  ∧ get_bearer_calls (trace out.1) = 1
  ∧ files out.1 !! "cache/TOKEN_MANGAS_IO" = Some live_token
  ∧ bearer (read_token (set_bearer PNone out.1)).1 = PStr live_token.
Proof. vm_compute. done. Qed.

Lemma is_token_valid_fails_closed_witness :
  (is_token_valid session_env (start "")).2 = Ok false
  ∧ (is_token_valid session_env (set_bearer (PStr "tok-old") (start ""))).2 = Ok false.
Proof.
  split.
  - apply is_token_valid_fails_closed. left. reflexivity.
  - apply is_token_valid_fails_closed. right. right. right.
    eexists _, _. split; [reflexivity|]. split; reflexivity.
Defined.

End SessionExamples.

(** ** Lemmas: the reader URL *)

Section UrlParsing.
Import Py Float64 Regex MangasIo Props Scenarios.

Implicit Types (k : string → list string → option (list string)).

Lemma rmatch_eps fuel s caps k : rmatch fuel Eps s caps k = k s caps.
Proof. by destruct fuel. Qed.

Lemma rmatch_seq fuel r1 r2 s caps k :
  rmatch fuel (Seq r1 r2) s caps k
  = rmatch fuel r1 s caps (λ s' caps', rmatch fuel r2 s' caps' k).
Proof. by destruct fuel. Qed.

Lemma rmatch_chars fuel p s caps k :
  rmatch fuel (Chars p) s caps k
  = match s with
    | String c s' => if p c then k s' caps else None
    | EmptyString => None
    end.
Proof. by destruct fuel. Qed.

Lemma rmatch_group fuel r s caps k :
  rmatch fuel (Group r) s caps k
  = rmatch fuel r s caps (λ s' caps', k s' (caps' ++ [consumed s s'])).
Proof. by destruct fuel. Qed.

Lemma rmatch_plus fuel r s caps k :
  rmatch (S fuel) (Plus r) s caps k
  = rmatch (S fuel) r s caps (λ s' caps',
      match rmatch fuel (Plus r) s' caps' k with
      | Some c => Some c
      | None => k s' caps'
      end).
Proof. done. Qed.

(** A literal captures nothing. *)
Lemma rmatch_lit_inv p : ∀ fuel s caps k res,
  rmatch fuel (lit p) s caps k = Some res → ∃ s', k s' caps = Some res.
Proof.
  induction p as [|c p IH]; intros fuel s caps k res; simpl.
  - rewrite rmatch_eps. eauto.
  - rewrite rmatch_seq, rmatch_chars.
    destruct s as [|c' s']; [done|]. destruct (Ascii.eqb c c'); [|done].
    apply IH.
Qed.

(** A repeated character class eats at least one character. *)
Lemma rmatch_plus_chars_inv p fuel : ∀ s caps k res,
  rmatch fuel (Plus (Chars p)) s caps k = Some res →
  ∃ s', String.length s' < String.length s ∧ k s' caps = Some res.
Proof.
  induction fuel as [|fuel IH]; intros s caps k res; [done|].
  rewrite rmatch_plus, rmatch_chars.
  destruct s as [|c s']; [done|]. destruct (p c); [|done].
  destruct (rmatch fuel (Plus (Chars p)) s' caps k) as [c'|] eqn:Hmore.
  - intros [= ->]. apply IH in Hmore as (s'' & Hlen & Hk).
    exists s''. simpl. split; [lia|done].
  - intros Hk. exists s'. simpl. split; [lia|done].
Qed.

Lemma consumed_nonempty s s' :
  String.length s' < String.length s → consumed s s' ≠ "".
Proof.
  unfold consumed. destruct s as [|c s]; simpl String.length; [lia|].
  intros Hlen.
  destruct (S (String.length s) - String.length s') as [|m] eqn:Hd; [lia|done].
Qed.

(** A match of the pattern has its two groups, the first not empty. *)
Lemma matches_URL_PATTERN u res :
  matches URL_PATTERN u = Some res → ∃ g1 g2, res = [g1; g2] ∧ g1 ≠ "".
Proof.
  unfold matches, URL_PATTERN.
  rewrite rmatch_seq. intros H.
  apply rmatch_lit_inv in H as (s1 & H).
  rewrite rmatch_seq, rmatch_group in H.
  apply rmatch_plus_chars_inv in H as (s2 & Hlen & H).
  rewrite rmatch_seq in H. apply rmatch_lit_inv in H as (s3 & H).
  rewrite rmatch_group in H.
  apply rmatch_plus_chars_inv in H as (s4 & _ & [= <-]).
  eexists _, _. split; [done|]. by apply consumed_nonempty.
Qed.

Lemma search_URL_PATTERN u : ∀ res,
  search URL_PATTERN u = Some res → ∃ g1 g2, res = [g1; g2] ∧ g1 ≠ "".
Proof.
  induction u as [|c u IH]; intros res; cbn [search].
  - destruct (matches URL_PATTERN "") eqn:Hm; [|done].
    intros [= <-]. by eapply matches_URL_PATTERN.
  - destruct (matches URL_PATTERN (String c u)) eqn:Hm.
    + intros [= <-]. by eapply matches_URL_PATTERN.
    + apply IH.
Qed.

Lemma rmatch_lit_ext p : ∀ f1 f2 s caps k1 k2,
  (∀ s' caps', String.length s' ≤ String.length s → k1 s' caps' = k2 s' caps') →
  rmatch f1 (lit p) s caps k1 = rmatch f2 (lit p) s caps k2.
Proof.
  induction p as [|c p IH]; intros f1 f2 s caps k1 k2 Hk; simpl.
  - rewrite !rmatch_eps. by apply Hk.
  - rewrite !rmatch_seq, !rmatch_chars.
    destruct s as [|c' s']; [done|]. destruct (Ascii.eqb c c'); [|done].
    apply IH. intros s'' caps' Hlen. apply Hk. simpl. lia.
Qed.

Lemma rmatch_plus_chars_ext p : ∀ s f1 f2 caps k1 k2,
  String.length s < f1 → String.length s < f2 →
  (∀ s' caps', String.length s' ≤ String.length s → k1 s' caps' = k2 s' caps') →
  rmatch f1 (Plus (Chars p)) s caps k1 = rmatch f2 (Plus (Chars p)) s caps k2.
Proof.
  induction s as [|c s IH]; intros [|f1] [|f2] caps k1 k2 H1 H2 Hk; try (simpl in *; lia).
  - by rewrite !rmatch_plus, !rmatch_chars.
  - rewrite !rmatch_plus, !rmatch_chars. destruct (p c); [|done].
    rewrite (IH f1 f2 caps k1 k2); [|simpl in *; lia..|].
    + rewrite Hk; [done|simpl; lia].
    + intros s' caps' Hlen. apply Hk. simpl. lia.
Qed.

(** The budget [matches] gives the loops of the pattern is enough: any
    larger one finds the same groups. *)
Lemma matches_fuel_enough u fuel :
  String.length u < fuel →
  rmatch fuel URL_PATTERN u [] (λ _ caps, Some caps) = matches URL_PATTERN u.
Proof.
  intros Hfuel. unfold matches, URL_PATTERN.
  rewrite !rmatch_seq. apply rmatch_lit_ext. intros s1 caps1 H1.
  rewrite !rmatch_seq, !rmatch_group.
  apply rmatch_plus_chars_ext; [lia..|]. intros s2 caps2 H2.
  rewrite !rmatch_seq. apply rmatch_lit_ext. intros s3 caps3 H3.
  rewrite !rmatch_group.
  apply rmatch_plus_chars_ext; [lia..|]. done.
Qed.
(** With a slug in place the parse step does nothing. *)
Lemma _parse_url_skip s : slug s ≠ "" → _parse_url s = (s, Ok tt).
Proof.
  intros Hs. unfold _parse_url.
  destruct (String.eqb_spec (slug s) ""); [done|done].
Qed.

Lemma parse_again_fixed n : ∀ s, slug s ≠ "" → parse_again n s = s.
Proof.
  induction n as [|n IH]; intros s Hs; simpl; [done|].
  rewrite (_parse_url_skip _ Hs). simpl. by apply IH.
Qed.

(** C8. Parsing the URL is idempotent: once [_parse_url] has run on a
    matching URL the slug is set, so every further call, whatever the
    instance then holds in its other attributes, returns without touching
    the world, and the pair (slug, chapter number) stays as it was; and
    the chapter segment 12.5 becomes the float 12.5, that is 25/2. *)
Theorem parse_url_idempotent s gs :
  search URL_PATTERN (url s) = Some gs →
  slug (_parse_url s).1 ≠ ""
  ∧ (∀ s2, slug s2 = slug (_parse_url s).1 → _parse_url s2 = (s2, Ok tt))
  ∧ (∀ n, parse_again n (_parse_url s).1 = (_parse_url s).1)
  ∧ float_of_string "12.5" = Ok twelve_and_a_half
  ∧ ratio twelve_and_a_half = Some (25, 2)%Z
  ∧ (slug s = "" → ∀ g1, gs = [g1; "12.5"] →
     slug (_parse_url s).1 = g1
     ∧ chapter_nb (_parse_url s).1 = ChFloat twelve_and_a_half).
Proof.
  intros Hm.
  assert (Hset : slug (_parse_url s).1 ≠ "").
  { unfold _parse_url. destruct (String.eqb_spec (slug s) "") as [Hempty|Hfull]; simpl; [|done].
    rewrite Hm. apply search_URL_PATTERN in Hm as (g1 & g2 & -> & Hg1).
    by destruct (float_of_string g2). }
  split; [done|]. split; [|split; [|split; [done|split; [done|]]]].
  - intros s2 Hs2. apply _parse_url_skip. by rewrite Hs2.
  - intros n. by apply parse_again_fixed.
  - intros Hempty g1 ->. unfold _parse_url. rewrite Hempty, Hm. done.
Qed.

End UrlParsing.

Section UrlParsingExamples.
Import Py Float64 Regex MangasIo Props Scenarios.

Lemma parse_url_idempotent_witness :
  slug (_parse_url (start "https://www.mangas.io/lire/demo-slug/12.5")).1 = "demo-slug"
  ∧ chapter_nb (_parse_url (start "https://www.mangas.io/lire/demo-slug/12.5")).1
    = ChFloat twelve_and_a_half
  ∧ parse_again 2 (_parse_url (start "https://www.mangas.io/lire/demo-slug/12.5")).1
    = (_parse_url (start "https://www.mangas.io/lire/demo-slug/12.5")).1.
Proof.
  destruct (parse_url_idempotent (start "https://www.mangas.io/lire/demo-slug/12.5")
              ["demo-slug"; "12.5"] eq_refl) as (_ & _ & Hagain & _ & _ & Hvalue).
  destruct (Hvalue eq_refl "demo-slug" eq_refl) as [Hslug Hnb].
  split; [exact Hslug|]. split; [exact Hnb|exact (Hagain 2)].
Defined.

(** The scenario of the specification: chapter 3 of [demo-slug]. *)
Example parse_url_demo_slug :
  let s := (_parse_url (start "https://www.mangas.io/lire/demo-slug/3")).1 in
  slug s = "demo-slug" ∧ chapter_nb s = ChFloat (Finite 3 0).
Proof. vm_compute. done. Qed.

(** A chapter segment with two dots matches the pattern but is no number:
    [float] raises, the slug stays set and the segment stays a [str]. *)
Example parse_url_two_dots :
  let out := _parse_url (start "https://www.mangas.io/lire/demo-slug/1.2.3") in
  out.2 = Raise ValueError ∧ slug out.1 = "demo-slug" ∧ chapter_nb out.1 = ChStr "1.2.3"
  ∧ _parse_url out.1 = (out.1, Ok tt).
Proof. vm_compute. done. Qed.

End UrlParsingExamples.

(** ** Lemmas: metadata resolution *)

Section Metadata.
Import Py Float64 Regex MangasIo Props Scenarios.

Tactic Notation "rbind_step" hyp(H) ident(x) ident(Hx) :=
  apply rbind_inv_ok in H as (x & Hx & H); cbv beta zeta in H.

(** What a successful [_fill_infos] has read and built. *)
Lemma fill_infos_inv data infos :
  _fill_infos data = Ok infos →
  ∃ chapter_id volumes vs pages_data table,
    chapter_field data "_id" = Ok chapter_id
    ∧ manga_field data "volumes" = Ok volumes
    ∧ iter volumes = Ok vs
    ∧ scan_volumes chapter_id vs ("", PStr "") = Ok (volume infos, description infos)
    ∧ chapter_field data "pageCount" = Ok (pages infos)
    ∧ chapter_field data "pages" = Ok pages_data
    ∧ (if truthy pages_data
       then ∃ ps, iter pages_data = Ok ps ∧ build_pages_map ps [] = Ok table
       else table = [])
    ∧ custom_fields infos = Some [("pages_map", table)]
    ∧ page_urls infos = repeat "" (length table).
Proof.
  unfold _fill_infos. intros H.
  rbind_step H top_data Htop. rbind_step H manga_data Hmanga.
  rbind_step H title' Htitle. rbind_step H direction Hdir.
  rbind_step H authors_data Hauthors. rbind_step H authors_list Hlist.
  rbind_step H names Hnames. rbind_step H authors' Hjoin.
  rbind_step H chapter_data Hchapter. rbind_step H chapter_id Hid.
  rbind_step H volumes Hvolumes. rbind_step H vs Hvs.
  rbind_step H found Hscan. destruct found as [volume_number volume_desc].
  rbind_step H number Hnumber. rbind_step H page_count Hcount.
  rbind_step H pages_data Hpages. rbind_step H table Htable.
  injection H as <-. simpl.
  exists chapter_id, volumes, vs, pages_data, table.
  unfold chapter_field, manga_field. rewrite Htop. simpl. rewrite Hmanga. simpl.
  rewrite Hchapter, Hvolumes. simpl.
  repeat split; try done.
  destruct (truthy pages_data); [|by injection Htable].
  apply rbind_inv_ok in Htable as (ps & Hps & Hbuild). eauto.
Qed.


(** The table after the comprehension: for every key, the id of the last
    page that carries it, else what the dict held before. *)
Lemma build_pages_map_spec ps : ∀ m t,
  build_pages_map ps m = Ok t → keys_hashable m →
  keys_hashable t
  ∧ ∀ k, hashable k = true →
      dict_get k t = match last_id k ps with
                     | Some i => Some i
                     | None => dict_get k m
                     end.
Proof.
  induction ps as [|p ps IH]; intros m t H Hm; simpl in H.
  - injection H as <-. done.
  - rbind_step H n Hn. rbind_step H i Hi. rbind_step H m' Hset.
    unfold dict_setitem in Hset. destruct (hashable n) eqn:Hh; [|done].
    injection Hset as <-.
    apply IH in H as [Ht Hget]; [|by apply dict_set_keys].
    split; [done|]. intros k Hk. rewrite Hget by done. simpl.
    rewrite Hn, Hi. destruct (last_id k ps); [done|].
    rewrite dict_get_set by done. by destruct (eqb n k).
Qed.

(** Every page that went into the table had a hashable number and an id. *)
Lemma build_pages_map_members ps : ∀ m t,
  build_pages_map ps m = Ok t →
  ∀ p, p ∈ ps →
    ∃ n i, getitem p "number" = Ok n ∧ getitem p "_id" = Ok i ∧ hashable n = true.
Proof.
  induction ps as [|q ps IH]; intros m t H p Hin; simpl in H.
  - by apply elem_of_nil in Hin.
  - rbind_step H n Hn. rbind_step H i Hi. rbind_step H m' Hset.
    unfold dict_setitem in Hset. destruct (hashable n) eqn:Hh; [|done].
    apply elem_of_cons in Hin as [->|Hin]; [eauto|by eapply IH].
Qed.

Lemma last_id_none k ps :
  (∀ p n, p ∈ ps → getitem p "number" = Ok n → eqb n k = false) →
  last_id k ps = None.
Proof.
  induction ps as [|q ps IH]; intros H; simpl; [done|].
  rewrite IH by (intros p n Hp; apply H; by right).
  destruct (getitem q "number") as [n| |] eqn:Hn; [|done|done].
  destruct (getitem q "_id"); [|done|done].
  by rewrite (H q n) by (done || by left).
Qed.

(** With pairwise different numbers every page finds its own id. *)
Lemma last_id_distinct ps :
  numbers_distinct ps →
  (∀ p n, p ∈ ps → getitem p "number" = Ok n → hashable n = true) →
  ∀ p n i, p ∈ ps → getitem p "number" = Ok n → getitem p "_id" = Ok i →
    last_id n ps = Some i.
Proof.
  induction ps as [|q ps IH]; intros Hd Hh p n i Hin Hn Hi.
  - by apply elem_of_nil in Hin.
  - destruct Hd as [Hq Hd]. simpl.
    apply elem_of_cons in Hin as [->|Hin].
    + rewrite last_id_none, Hn, Hi.
      * rewrite eqb_refl; [done|]. eapply Hh; [by left|done].
      * intros p' n' Hp' Hn'. rewrite eqb_sym.
        -- by eapply Hq.
        -- eapply Hh; [by right|done].
        -- eapply Hh; [by left|done].
    + erewrite IH; eauto. intros p' n' Hp'. apply Hh. by right.
Qed.

Lemma build_pages_map_length ps : ∀ m t,
  build_pages_map ps m = Ok t → keys_hashable m → numbers_distinct ps →
  (∀ p n, p ∈ ps → getitem p "number" = Ok n → dict_get n m = None) →
  length t = length m + length ps.
Proof.
  induction ps as [|q ps IH]; intros m t H Hm Hd Hnew; simpl in H.
  - injection H as <-. simpl. lia.
  - rbind_step H n Hn. rbind_step H i Hi. rbind_step H m' Hset.
    unfold dict_setitem in Hset. destruct (hashable n) eqn:Hh; [|done].
    injection Hset as <-. destruct Hd as [Hq Hd].
    pose proof (build_pages_map_members _ _ _ H) as Hmem.
    apply IH in H; [| by apply dict_set_keys | done |].
    + rewrite H, dict_set_length_new; [simpl; lia|].
      eapply Hnew; [by left|done].
    + intros p' n' Hp' Hn'.
      destruct (Hmem _ Hp') as (n'' & i'' & Hn'' & _ & Hh'').
      assert (n'' = n') as -> by congruence.
      rewrite dict_get_set by done.
      rewrite (Hq n p' n') by done. eapply Hnew; [by right|done].
Qed.

(** The inner loop: the fields of [v] if it holds the chapter, else what
    was found so far. *)
Lemma scan_chapters_spec chapter_id v cs acc r :
  scan_chapters chapter_id v cs acc = Ok r →
  if has_chapter chapter_id cs then volume_fields v = Some r else r = acc.
Proof.
  induction cs as [|c cs IH]; simpl; intros H.
  - by injection H.
  - rbind_step H cid Hcid. rewrite Hcid.
    destruct (eqb cid chapter_id); simpl; [|by apply IH].
    rbind_step H n Hn. rbind_step H d Hd. injection H as <-.
    unfold volume_fields. by rewrite Hn, Hd.
Qed.

Lemma last_holder_cons chapter_id v vs :
  last_holder chapter_id (v :: vs)
  = match last_holder chapter_id vs with
    | Some w => Some w
    | None => if holds_chapter chapter_id v then Some v else None
    end.
Proof.
  unfold last_holder. simpl. induction (rev vs) as [|w l IH]; simpl; [done|].
  by destruct (holds_chapter chapter_id w).
Qed.

(** The outer loop: the last volume that holds the chapter decides. *)
Lemma scan_volumes_spec chapter_id vs : ∀ acc r,
  scan_volumes chapter_id vs acc = Ok r →
  match last_holder chapter_id vs with
  | Some v => volume_fields v = Some r
  | None => r = acc
  end.
Proof.
  induction vs as [|v vs IH]; intros acc r H; simpl in H.
  - by injection H.
  - rbind_step H chapters Hch. rbind_step H cs Hcs. rbind_step H acc' Hacc.
    apply IH in H. apply scan_chapters_spec in Hacc.
    rewrite last_holder_cons. destruct (last_holder chapter_id vs); [done|].
    unfold holds_chapter. rewrite Hch, Hcs.
    destruct (has_chapter chapter_id cs); congruence.
Qed.

(** The volume fields of a result come from the last volume whose chapter
    list holds the id of the target chapter; they are empty when no volume
    holds it. *)
Lemma fill_infos_volume data infos :
  _fill_infos data = Ok infos →
  ∃ chapter_id vs,
    chapter_field data "_id" = Ok chapter_id
    ∧ rbind (manga_field data "volumes") iter = Ok vs
    ∧ match last_holder chapter_id vs with
      | Some v => volume_fields v = Some (volume infos, description infos)
      | None => volume infos = "" ∧ description infos = PStr ""
      end.
Proof.
  intros H.
  apply fill_infos_inv in H
    as (chapter_id & volumes & vs & _ & _ & Hid & Hvol & Hvs & Hscan & _).
  exists chapter_id, vs. split; [done|]. split; [by rewrite Hvol|].
  apply scan_volumes_spec in Hscan.
  destruct (last_holder chapter_id vs); [done|]. by injection Hscan.
Qed.

(** C5. The chapter [c3] sits in volume 1 and in volume 2. The volume scan
    reports volume 2, the last one that holds it: [break] leaves the
    chapter loop only and the volume loop goes on. The first volume that
    holds the chapter is volume 1. *)
Theorem fill_infos_shared_chapter_takes_last_volume :
  ∃ infos,
    _fill_infos two_volumes = Ok infos
    ∧ rbind (manga_field two_volumes "volumes") iter = Ok [volume_one; volume_two]
    ∧ volume infos = "2" ∧ description infos = PStr "second"
    ∧ first_holder (PStr "c3") [volume_one; volume_two] = Some volume_one
    ∧ volume_fields volume_one = Some ("1", PStr "first").
Proof. eexists. vm_compute. done. Qed.

(** C6. From a successful metadata response the table is built out of the
    pages list: for every key it holds the id of the last page that
    carries this number, hence every page's own id when the numbers of the
    pages are pairwise different, and then it has one entry per page; it
    is empty when the server returned no pages. The page URL list holds as
    many empty placeholders as the table has entries. *)
Theorem fill_infos_pages_map data infos :
  _fill_infos data = Ok infos →
  ∃ pages_data table,
    chapter_field data "pages" = Ok pages_data
    ∧ table_of infos = Some table
    ∧ page_urls infos = repeat "" (length table)
    ∧ length (page_urls infos) = length table
    ∧ (truthy pages_data = false → table = [])
    ∧ (truthy pages_data = true →
       ∃ ps, iter pages_data = Ok ps
         ∧ (∀ k, hashable k = true → dict_get k table = last_id k ps)
         ∧ (numbers_distinct ps →
            length table = length ps
            ∧ ∀ p n i, p ∈ ps → getitem p "number" = Ok n → getitem p "_id" = Ok i →
                dict_get n table = Some i)).
Proof.
  intros H.
  apply fill_infos_inv in H
    as (_ & _ & _ & pages_data & table & _ & _ & _ & _ & _ & Hpages & Htable & Hcustom & Hurls).
  exists pages_data, table. split; [done|].
  split; [unfold table_of; by rewrite Hcustom|].
  split; [done|]. split; [by rewrite Hurls, repeat_length|].
  destruct (truthy pages_data); (split; [try done|try done]).
  intros _. destruct Htable as (ps & Hps & Hbuild). exists ps. split; [done|].
  pose proof (build_pages_map_members _ _ _ Hbuild) as Hmem.
  destruct (build_pages_map_spec _ _ _ Hbuild) as [_ Hget]; [by constructor|].
  assert (Hlast : ∀ k, hashable k = true → dict_get k table = last_id k ps).
  { intros k Hk. rewrite Hget by done. by destruct (last_id k ps). }
  split; [done|]. intros Hd. split.
  - rewrite (build_pages_map_length _ _ _ Hbuild); [done|by constructor|done|done].
  - intros p n i Hp Hn Hi.
    assert (Hh : ∀ p n, p ∈ ps → getitem p "number" = Ok n → hashable n = true).
    { intros p' n' Hp' Hn'. destruct (Hmem _ Hp') as (? & ? & ? & _ & ?). congruence. }
    rewrite Hlast by by eapply Hh.
    by eapply last_id_distinct.
Qed.

(** C10. The page count of a result is the [pageCount] member of the
    response, whatever the table holds. The page URL list is as long as
    the table, so the count and that length differ whenever [pageCount] is
    not the number of table entries; with pairwise different page numbers
    the table has one entry per page, and they differ whenever [pageCount]
    is not the length of the pages list. *)
Theorem fill_infos_pages_is_page_count data infos :
  _fill_infos data = Ok infos →
  chapter_field data "pageCount" = Ok (pages infos)
  ∧ ∃ table,
      table_of infos = Some table
      ∧ length (page_urls infos) = length table
      ∧ (eqb (pages infos) (PInt (Z.of_nat (length table))) = false →
         eqb (pages infos) (PInt (Z.of_nat (length (page_urls infos)))) = false)
      ∧ ∀ ps, chapter_field data "pages" = Ok (PList ps) → numbers_distinct ps →
          length table = length ps
          ∧ (eqb (pages infos) (PInt (Z.of_nat (length ps))) = false →
             eqb (pages infos) (PInt (Z.of_nat (length (page_urls infos)))) = false).
Proof.
  intros H.
  apply fill_infos_inv in H
    as (_ & _ & _ & pages_data & table & _ & _ & _ & _ & Hcount & Hpages & Htable & Hcustom & Hurls).
  assert (Hlen : length (page_urls infos) = length table) by by rewrite Hurls, repeat_length.
  split; [done|]. exists table.
  split; [unfold table_of; by rewrite Hcustom|]. split; [done|].
  split; [by rewrite Hlen|].
  intros ps Hps Hd. rewrite Hpages in Hps. injection Hps as ->.
  assert (length table = length ps) as Heq.
  { destruct ps as [|p ps]; simpl in Htable; [by rewrite Htable|].
    destruct Htable as (ps' & [= <-] & Hbuild).
    rewrite (build_pages_map_length _ _ _ Hbuild); [done|by constructor|done|done]. }
  split; [done|]. by rewrite Hlen, Heq.
Qed.

End Metadata.

Section MetadataExamples.
Import Py Float64 Regex MangasIo Props Scenarios.

Lemma fill_infos_pages_map_witness :
  ∃ infos, _fill_infos two_pages = Ok infos
    ∧ table_of infos = Some [(PInt 1, PStr "a"); (PInt 2, PStr "b")]
    ∧ length (page_urls infos) = 2.
Proof.
  eexists. split; [reflexivity|].
  destruct (fill_infos_pages_map two_pages _ eq_refl)
    as (pages_data & table & _ & Htable & _ & Hlen & _).
  split; [reflexivity|]. rewrite Hlen.
  simpl in Htable. by injection Htable as <-.
Defined.

(** Two pages numbered 1: the table maps 1 to the id of the second one,
    not to the id of the first, and has one entry for two pages. *)
Lemma fill_infos_pages_map_repeated_number :
  ∃ infos, _fill_infos repeated_number = Ok infos
    ∧ chapter_field repeated_number "pages" = Ok (PList [page 1 "a"; page 1 "b"])
    ∧ getitem (page 1 "a") "number" = Ok (PInt 1)
    ∧ getitem (page 1 "a") "_id" = Ok (PStr "a")
    ∧ table_lookup infos 1 = Some (PStr "b")
    ∧ table_lookup infos 1 ≠ Some (PStr "a").
Proof. eexists. vm_compute. repeat split; done. Qed.

Lemma fill_infos_pages_is_page_count_witness :
  ∃ infos, _fill_infos two_pages = Ok infos ∧ pages infos = PInt 2.
Proof.
  eexists. split; [reflexivity|].
  destruct (fill_infos_pages_is_page_count two_pages _ eq_refl) as [Hcount _].
  assert (Hread : chapter_field two_pages "pageCount" = Ok (PInt 2)) by reflexivity.
  congruence.
Defined.

(** [pageCount] is 1 and the pages list has two entries, both numbered 1:
    the two disagree, and yet the page count and the length of the page
    URL list are the same. *)
Lemma fill_infos_page_count_meets_placeholders :
  ∃ infos ps, _fill_infos repeated_number = Ok infos
    ∧ chapter_field repeated_number "pages" = Ok (PList ps)
    ∧ chapter_field repeated_number "pageCount" = Ok (PInt 1)
    ∧ length ps = 2
    ∧ pages infos = PInt 1
    ∧ length (page_urls infos) = 1.
Proof. eexists _, _. vm_compute. repeat split; done. Qed.

End MetadataExamples.

(** ** Lemmas: the resolvers and the backend *)

Section Resolution.
Import Py Float64 Regex MangasIo Props Scenarios.
Variable E : environment.

Lemma page_requests_app t1 t2 :
  page_requests (t1 ++ t2) = page_requests t1 + page_requests t2.
Proof.
  induction t1 as [|e t1 IH]; simpl; [done|].
  destruct e as [|? ? []]; simpl; lia.
Qed.

(** The parse step leaves the history alone. *)
Lemma _parse_url_trace s : trace (_parse_url s).1 = trace s.
Proof.
  unfold _parse_url. destruct (negb _); [done|].
  destruct (search URL_PATTERN (url s)) as [[|g1 [|g2 [|]]]|]; try done.
  by destruct (float_of_string g2).
Qed.

Lemma get_book_infos_unfold s :
  get_book_infos E s
  = match _parse_url s with
    | (s1, Ok _) =>
        (set_trace (metadata_query s1) s1,
         rbind (of_sum (server E (metadata_query s1))) digest)
    | (s1, Raise e) => (s1, Raise e)
    | (s1, OutOfFuel) => (s1, OutOfFuel)
    end.
Proof.
  unfold get_book_infos, bind at 1.
  destruct (_parse_url s) as [s1 [[]| |]]; [|done|done].
  unfold read, http_post, post, bind, metadata_query, digest, ret, lift. simpl.
  destruct (of_sum (server E _)) as [resp| |]; simpl; [|done|done].
  destruct (negb (status_code resp =? 200)%Z); [done|].
  destruct (of_sum (json resp)) as [data| |]; simpl; [|done|done].
  destruct (negb (truthy data)); [done|].
  destruct (get data "data") as [top_data| |]; simpl; [|done|done].
  by destruct (negb (truthy top_data)).
Qed.

Lemma get_book_infos_page_requests s :
  page_requests (trace (get_book_infos E s).1) = page_requests (trace s).
Proof.
  rewrite get_book_infos_unfold. pose proof (_parse_url_trace s) as Ht.
  destruct (_parse_url s) as [s1 [[]| |]]; simpl in *; try by rewrite Ht.
  unfold metadata_query. rewrite page_requests_app, Ht. simpl. lia.
Qed.

(** C4. When the backend answers the metadata query with a status other
    than 200, with a payload that is falsy (null, an empty object, an
    empty array, ...), or with an object whose data member is missing or
    falsy, [get_book_infos] returns the empty result, title empty and
    pages 0, and does not raise. *)
Theorem get_book_infos_empty_result s s1 resp :
  _parse_url s = (s1, Ok tt) →
  server E (metadata_query s1) = inr resp →
  status_code resp ≠ 200%Z
  ∨ (∃ data, json resp = inr data ∧ truthy data = false)
  ∨ (∃ d, json resp = inr (PDict d)
       ∧ truthy (default PNone (assoc "data" d)) = false) →
  (get_book_infos E s).2 = Ok empty_infos
  ∧ title empty_infos = PStr "" ∧ pages empty_infos = PInt 0.
Proof.
  intros Hparse Hreply Hcase. split; [|done].
  rewrite get_book_infos_unfold, Hparse, Hreply. simpl. unfold digest.
  destruct (Z.eqb_spec (status_code resp) 200) as [Hcode|Hcode]; simpl; [|done].
  destruct Hcase as [Hne|[(data & Hj & Hfalsy)|(d & Hj & Hfalsy)]]; [done| |].
  - rewrite Hj. simpl. by rewrite Hfalsy.
  - rewrite Hj. simpl. destruct (negb _); [done|].
    destruct (assoc "data" d); simpl in *; [by rewrite Hfalsy|done].
Qed.

(** C7. When the result of the metadata fetch has no table, or its table
    has no key [page_num + 1], [before_download_page] returns the empty
    string in the world the metadata fetch left: no [getPageById] request
    was sent. *)
Theorem before_download_page_unknown_index s page_num u s1 infos :
  get_book_infos E s = (s1, Ok infos) →
  table_lookup infos (page_num + 1) = None →
  before_download_page E page_num u s = (s1, Ok (PStr ""))
  ∧ page_requests (trace (before_download_page E page_num u s).1)
    = page_requests (trace s).
Proof.
  intros Hinfos Hmiss.
  assert (Hrun : before_download_page E page_num u s = (s1, Ok (PStr ""))).
  { unfold before_download_page. rewrite (bind_ok _ _ _ _ _ Hinfos).
    unfold table_lookup, table_of in Hmiss.
    destruct (custom_fields infos) as [fields|]; [|done].
    destruct (assoc "pages_map" fields) as [pages_map|]; [|done].
    by rewrite Hmiss. }
  split; [done|]. rewrite Hrun. simpl.
  pose proof (get_book_infos_page_requests s) as Hreq. by rewrite Hinfos in Hreq.
Qed.

End Resolution.

Section ResolutionExamples.
Import Py Float64 Regex MangasIo Props Scenarios.

Lemma get_book_infos_empty_result_witness :
  (get_book_infos (fixed_env (answer 200 (PDict [("errors", PList [PStr "boom"])]))) reader).2
  = Ok empty_infos.
Proof.
  apply (get_book_infos_empty_result
           (fixed_env (answer 200 (PDict [("errors", PList [PStr "boom"])])))
           reader _ _ eq_refl eq_refl).
  right. right. eexists. split; reflexivity.
Defined.

(** A payload that is a JSON array has no top-level data, and the plugin
    raises on it: [not data] is false and a list has no [get]. *)
Lemma get_book_infos_array_payload_raises :
  (_parse_url reader).2 = Ok tt
  ∧ server array_env (metadata_query (_parse_url reader).1) = answer 200 array_payload
  ∧ get array_payload "data" = Raise AttributeError
  ∧ (get_book_infos array_env reader).2 = Raise AttributeError.
Proof. vm_compute. repeat split; done. Qed.

(** A body that is not JSON at all makes [response.json()] raise. *)
Example get_book_infos_broken_body_raises :
  (get_book_infos
     (fixed_env (inr {| status_code := 200; json := inl JSONDecodeError |})) reader).2
  = Raise JSONDecodeError.
Proof. vm_compute. done. Qed.

Lemma before_download_page_unknown_index_witness :
  (before_download_page library_env 5 "" reader).2 = Ok (PStr "")
  ∧ page_requests (trace (before_download_page library_env 5 "" reader).1) = 0.
Proof.
  destruct (before_download_page_unknown_index library_env reader 5 "" _ _ eq_refl eq_refl)
    as [Hrun Hreq].
  split; [by rewrite Hrun|exact Hreq].
Defined.

(** A known index is resolved with one [getPageById] request. *)
Example before_download_page_known_index :
  (before_download_page library_env 0 "" reader).2 = Ok (PStr "https://cdn.mangas.io/a")
  ∧ page_requests (trace (before_download_page library_env 0 "" reader).1) = 1.
Proof. vm_compute. done. Qed.

(** The scenario of the specification: direction rtl reads right to left. *)
Example get_book_infos_rtl :
  ∃ infos, (get_book_infos library_env reader).2 = Ok infos
    ∧ read_direction infos = RTOL ∧ authors infos = "Ann, Bob".
Proof. eexists. vm_compute. done. Qed.

End ResolutionExamples.

(** ** Lemmas: the semaphore *)

Section SingleFlight.
Import Gate.

Lemma held_insert l : ∀ i p q,
  l !! i = Some p →
  held (<[i := q]> l) + weight p = held l + weight q.
Proof.
  induction l as [|x l IH]; intros [|i] p q H; simpl in *; try done.
  - injection H as ->. lia.
  - specialize (IH i p q H). lia.
Qed.

Lemma running_le_held l : running l ≤ held l.
Proof. induction l as [|p l IH]; simpl; [done|]. destruct p; simpl; lia. Qed.

Lemma held_replicate n : held (replicate n Called) = 0.
Proof. induction n as [|n IH]; simpl; [done|exact IH]. Qed.

Lemma init_balanced n : balanced (init n).
Proof. unfold balanced, init. simpl. rewrite held_replicate. lia. Qed.

Lemma pending_found l ws j :
  List.find (pending l) ws = Some j → j ∈ ws ∧ l !! j = Some Queued.
Proof.
  intros H. apply find_some in H as [Hin Hp]. split; [by apply list_elem_of_In|].
  unfold pending in Hp. by destruct (l !! j) as [[]|].
Qed.

(** Waking the next waiter moves a permit from the counter to a call. *)
Lemma wake_up_next_balanced g :
  0 < value g → value g + held (calls g) = 2 ∨ value g + held (calls g) = 1 →
  value (_wake_up_next g) + held (calls (_wake_up_next g)) = value g + held (calls g).
Proof.
  intros Hv _. unfold _wake_up_next.
  destruct (List.find _ _) as [j|] eqn:Hf; [|done].
  apply pending_found in Hf as [_ Hj]. simpl.
  pose proof (held_insert _ _ _ Granted Hj) as Hins. simpl in Hins. lia.
Qed.

Lemma weight_le_held l : ∀ i p, l !! i = Some p → weight p ≤ held l.
Proof.
  induction l as [|x l IH]; intros [|i] p H; simpl in *; try done.
  - injection H as ->. lia.
  - specialize (IH i p H). lia.
Qed.

Lemma step_balanced a i g : balanced g → balanced (step a i g).
Proof.
  unfold balanced, step. intros Hg.
  destruct (calls g !! i) as [p|] eqn:Hp; [|done].
  pose proof (weight_le_held _ _ _ Hp) as Hw.
  destruct a, p; try done; simpl in Hw.
  - (* acquire, new call *)
    unfold locked. destruct (Nat.eqb_spec (value g) 0) as [Hv|Hv]; simpl.
    + pose proof (held_insert _ _ _ Queued Hp) as Hins. simpl in Hins. lia.
    + destruct (negb _); simpl.
      * pose proof (held_insert _ _ _ Queued Hp) as Hins. simpl in Hins. lia.
      * pose proof (held_insert _ _ _ Resolving Hp) as Hins. simpl in Hins. lia.
  - (* acquire, resumed with the permit *)
    assert (Hv : value g = 0) by lia. cbn [value]. rewrite Hv. simpl.
    pose proof (held_insert _ _ _ Resolving Hp) as Hins. simpl in Hins. lia.
  - (* await *)
    simpl. pose proof (held_insert _ _ _ Fetching Hp) as Hins. simpl in Hins. lia.
  - (* release, before the request *)
    pose proof (held_insert _ _ _ Returned Hp) as Hins. simpl in Hins.
    rewrite wake_up_next_balanced; simpl; lia.
  - (* release, after the request *)
    pose proof (held_insert _ _ _ Returned Hp) as Hins. simpl in Hins.
    rewrite wake_up_next_balanced; simpl; lia.
Qed.

Lemma run_balanced sched : ∀ g, balanced g → balanced (run sched g).
Proof.
  induction sched as [|[a i] sched IH]; intros g Hg; simpl; [done|].
  by apply IH, step_balanced.
Qed.


End SingleFlight.

Section SingleFlightExamples.
Import Gate.


End SingleFlightExamples.

(** ** Further lemmas: token cache and session *)

Section SessionCoverage.
Import Py Float64 Regex MangasIo Props Scenarios.
Variable E : environment.

(** X1. The token cache round-trips up to line ends: whenever
    [write_token] of a text has returned, the cache file holds that text,
    no other file was touched, and a [read_token] that follows, whatever
    token the instance held in between, loads the text with every
    carriage return (and the line feed after it, if any) read as one line
    feed. It loads exactly the text written if and only if that text
    holds no carriage return. *)
Theorem token_cache_round_trip s s' t b :
  write_token (PStr t) s = (s', Ok tt) →
  files s' !! file_token s' = Some t
  ∧ (∀ p, p ≠ file_token s → files s' !! p = files s !! p)
  ∧ read_token (set_bearer b s') = (set_bearer (PStr (universal_newlines t)) s', Ok tt)
  ∧ (read_token (set_bearer b s') = (set_bearer (PStr t) s', Ok tt) ↔ has_cr t = false).
Proof.
  unfold write_token.
  destruct (decide (file_token s ∈ locked s)) as [|_]; [done|].
  intros [= <-].
  assert (Hfile : files (set_files (<[file_token s := t]> (files s)) s) !! file_token s
                  = Some t) by (simpl; by rewrite lookup_insert_eq).
  assert (Hread : read_token (set_bearer b (set_files (<[file_token s := t]> (files s)) s))
                  = (set_bearer (PStr (universal_newlines t))
                       (set_files (<[file_token s := t]> (files s)) s), Ok tt)).
  { unfold read_token.
    change (file_token (set_bearer b _)) with (file_token s).
    change (files (set_bearer b ?x)) with (files x).
    by rewrite Hfile. }
  split; [exact Hfile|]. split; [|split; [exact Hread|]].
  - intros p Hp. simpl. by rewrite lookup_insert_ne.
  - rewrite Hread, <- universal_newlines_fixed. split.
    + intros [= Heq]. done.
    + by intros ->.
Qed.

(** The validator, case by case. *)
Lemma is_token_valid_cases s :
  is_token_valid E s
  = if negb (truthy (bearer s)) then (s, Ok false)
    else (set_trace (probe s) s,
          match server E (probe s) with
          | inl RequestException => Ok false
          | inl e => Raise e
          | inr resp =>
              if negb (status_code resp =? 200)%Z then Ok false
              else let? body := of_sum (json resp) in
                   let? status := get body "status" in
                   Ok (eqb status (PStr "success"))
          end).
Proof.
  unfold is_token_valid, post. fold (probe s).
  destruct (negb (truthy (bearer s))); [done|]. simpl.
  destruct (server E (probe s)) as [e|resp]; simpl; [by destruct e|].
  by destruct (negb _).
Qed.

(** X2. The validator says yes only on an explicit success: when
    [is_token_valid] returns True, a token is held, it was sent to the
    validation endpoint with the instance's headers, and the answer had
    status 200 and a JSON object whose status member equals the word
    success. *)
Theorem is_token_valid_accepts_only_success s s1 :
  is_token_valid E s = (s1, Ok true) →
  truthy (bearer s) = true
  ∧ s1 = set_trace (probe s) s
  ∧ ∃ resp d,
      server E (probe s) = inr resp
      ∧ status_code resp = 200%Z
      ∧ json resp = inr (PDict d)
      ∧ ∃ v, assoc "status" d = Some v ∧ eqb v (PStr "success") = true.
Proof.
  rewrite is_token_valid_cases.
  destruct (truthy (bearer s)); simpl; [|done].
  intros [= <- H]. split; [done|]. split; [done|].
  destruct (server E (probe s)) as [e|resp]; [by destruct e|].
  destruct (Z.eqb_spec (status_code resp) 200) as [Hcode|]; simpl in H; [|done].
  destruct (json resp) as [e|body] eqn:Hj; simpl in H; [done|].
  destruct body as [| | | | |d]; simpl in H; try done.
  destruct (assoc "status" d) as [v|] eqn:Hst; simpl in H; [|done].
  injection H as H. eauto 10.
Qed.

(** X3. The validator absorbs [RequestException] only. With a token held
    it raises what [requests.post] raises otherwise, what
    [response.json()] raises on a 200 answer, and [AttributeError] when the
    body of a 200 answer is JSON but not an object. *)
Theorem is_token_valid_raises s :
  truthy (bearer s) = true →
  (∀ e, server E (probe s) = inl e → e ≠ RequestException →
        (is_token_valid E s).2 = Raise e)
  ∧ (∀ resp e, server E (probe s) = inr resp → status_code resp = 200%Z →
        json resp = inl e → (is_token_valid E s).2 = Raise e)
  ∧ (∀ resp body, server E (probe s) = inr resp → status_code resp = 200%Z →
        json resp = inr body → (∀ d, body ≠ PDict d) →
        (is_token_valid E s).2 = Raise AttributeError).
Proof.
  intros Hheld. rewrite is_token_valid_cases, Hheld. simpl.
  split; [|split].
  - intros e -> Hne. by destruct e.
  - intros resp e -> -> ->. done.
  - intros resp body -> -> -> Hshape. simpl.
    destruct body; try done. by destruct (Hshape entries).
Qed.


(** The login client, case by case. *)
Lemma get_bearer_cases s :
  get_bearer E s
  = let t1 := trace s ++ [Prompt false] in
    match console E t1 with
    | inl e => (set_trace t1 s, Raise e)
    | inr email =>
        let t2 := t1 ++ [Prompt true] in
        match console E t2 with
        | inl e => (set_trace t2 s, Raise e)
        | inr password =>
            let t3 := t2 ++ [Post login_url (headers s) (Login email password)] in
            (set_trace t3 s,
             match server E t3 with
             | inl e => Raise e
             | inr resp =>
                 if negb (status_code resp =? 200)%Z then Ok (PStr "")
                 else let? body := of_sum (json resp) in getitem body "token"
             end)
        end
    end.
Proof.
  unfold get_bearer, bind, ask, post, ret, lift. simpl.
  destruct (console E (trace s ++ [Prompt false])) as [e|email]; simpl; [done|].
  destruct (console E ((trace s ++ [Prompt false]) ++ [Prompt true])) as [e|pw]; simpl; [done|].
  destruct (server E _) as [e|resp]; simpl; [done|].
  by destruct (negb _).
Qed.

Lemma login_exchange_steps s email password :
  ((trace s ++ [Prompt false]) ++ [Prompt true])
    ++ [Post login_url (headers s) (Login email password)]
  = login_exchange s email password.
Proof. unfold login_exchange. by rewrite <- !app_assoc. Qed.

(** X4. One login is two prompts, visible then masked, and one request to
    the login endpoint that carries what was typed. A network error of
    that request is not caught; a status other than 200 gives the empty
    token without the body being read; a 200 answer gives the token member
    of its JSON object, and [KeyError] when the object has none. Nothing
    but the history changes. *)
Theorem get_bearer_exchange s email password :
  console E (trace s ++ [Prompt false]) = inr email →
  console E (trace s ++ [Prompt false; Prompt true]) = inr password →
  (get_bearer E s).1 = set_trace (login_exchange s email password) s
  ∧ (∀ e, server E (login_exchange s email password) = inl e →
          (get_bearer E s).2 = Raise e)
  ∧ (∀ resp, server E (login_exchange s email password) = inr resp →
       (status_code resp ≠ 200%Z → (get_bearer E s).2 = Ok (PStr ""))
       ∧ (status_code resp = 200%Z → ∀ d, json resp = inr (PDict d) →
          (get_bearer E s).2 = match assoc "token" d with
                               | Some tok => Ok tok
                               | None => Raise (KeyError "token")
                               end)).
Proof.
  intros Hemail Hpw. rewrite get_bearer_cases. cbv zeta.
  rewrite Hemail. rewrite <- app_assoc. simpl app. rewrite Hpw.
  change (trace s ++ [Prompt false; Prompt true])
    with (trace s ++ [Prompt false] ++ [Prompt true]).
  rewrite app_assoc, login_exchange_steps. simpl.
  split; [done|]. split.
  - by intros e ->.
  - intros resp ->. split.
    + intros Hcode. by destruct (Z.eqb_spec (status_code resp) 200).
    + intros -> d ->. simpl. by destruct (assoc "token" d).
Qed.

Lemma is_token_valid_extends s :
  ∃ evs, trace (is_token_valid E s).1 = trace s ++ evs
    ∧ forallb sound_probe evs = true.
Proof.
  rewrite is_token_valid_cases.
  destruct (truthy (bearer s)) eqn:Hheld; simpl.
  - exists [Post validation_url (headers s) (TokenValidation (bearer s))].
    split; [done|]. simpl. by rewrite Hheld.
  - exists []. by rewrite app_nil_r.
Qed.

Lemma get_bearer_extends s :
  ∃ evs, trace (get_bearer E s).1 = trace s ++ evs
    ∧ forallb sound_probe evs = true.
Proof.
  rewrite get_bearer_cases. cbv zeta.
  destruct (console E (trace s ++ [Prompt false])) as [e|email]; simpl.
  - by exists [Prompt false].
  - destruct (console E ((trace s ++ [Prompt false]) ++ [Prompt true])) as [e|pw]; simpl.
    + exists [Prompt false; Prompt true]. by rewrite <- app_assoc.
    + exists [Prompt false; Prompt true; Post login_url (headers s) (Login email pw)].
      by rewrite <- !app_assoc.
Qed.

Lemma validate_loop_extends fuel : ∀ s,
  ∃ evs, trace (validate_loop E fuel s).1 = trace s ++ evs
    ∧ forallb sound_probe evs = true.
Proof.
  induction fuel as [|fuel IH]; intros s; simpl.
  - exists []. by rewrite app_nil_r.
  - destruct (is_token_valid_extends s) as (ev1 & Ht1 & Hs1).
    unfold bind at 1.
    destruct (is_token_valid E s) as [s1 [[|]| |]]; simpl in *; try by eauto.
    destruct (get_bearer_extends s1) as (ev2 & Ht2 & Hs2).
    unfold bind at 1.
    destruct (get_bearer E s1) as [s2 [b| |]]; simpl in *.
    + unfold modify, bind. destruct (IH (set_bearer b s2)) as (ev3 & Ht3 & Hs3).
      exists (ev1 ++ ev2 ++ ev3). rewrite Ht3. simpl. rewrite Ht2, Ht1.
      split; [by rewrite <- !app_assoc|]. by rewrite !forallb_app, Hs1, Hs2, Hs3.
    + exists (ev1 ++ ev2). rewrite Ht2, Ht1.
      split; [by rewrite <- !app_assoc|]. by rewrite !forallb_app, Hs1, Hs2.
    + exists (ev1 ++ ev2). rewrite Ht2, Ht1.
      split; [by rewrite <- !app_assoc|]. by rewrite !forallb_app, Hs1, Hs2.
Qed.

(** X5. Whatever happens during [authenticate], no empty (falsy) token is
    ever sent to the validation endpoint: the history only grows, and every
    validation request it gains carries a token that counts as held. An
    empty token from a failed login goes straight back to the prompts. *)
Theorem authenticate_never_probes_empty_token fuel s :
  ∃ evs, trace (authenticate E fuel s).1 = trace s ++ evs
    ∧ forallb sound_probe evs = true.
Proof.
  rewrite authenticate_unfold.
  destruct (validate_loop_extends fuel (loaded s)) as (evs & Ht & Hs).
  exists evs. split; [|done].
  assert (Hl : trace (loaded s) = trace s) by (by rewrite loaded_frame).
  rewrite Hl in Ht. unfold bind.
  destruct (validate_loop E fuel (loaded s)) as [sv [[]| |]]; simpl in *; try done.
  by rewrite install_trace.
Qed.

Lemma logins_until_valid_accepted k s sv :
  logins_until_valid E k s sv → ∃ sx, is_token_valid E sx = (sv, Ok true).
Proof. induction 1; eauto. Qed.

(** X6. Whenever [authenticate] returns, the session is consistent: the
    instance holds a non-empty text token, the headers are the former ones
    plus [authorization] with Bearer and that token, the cache file holds
    the token and no other file changed, and the last thing in the history
    is the validation request for that token, answered with status 200. *)
Theorem authenticate_postcondition fuel s s' :
  authenticate E fuel s = (s', Ok tt) →
  ∃ t, t ≠ ""
    ∧ bearer s' = PStr t
    ∧ headers s' = <["authorization" := "Bearer " +:+ t]> (headers s)
    ∧ files s' = <[file_token s := t]> (files s)
    ∧ last (trace s') = Some (Post validation_url (headers s) (TokenValidation (PStr t)))
    ∧ ∃ resp, server E (trace s') = inr resp ∧ status_code resp = 200%Z.
Proof.
  intros Hret. rewrite authenticate_unfold in Hret.
  apply bind_inv_ok in Hret as (sv & [] & Hloop & Hinst).
  apply validate_loop_returns in Hloop as (k & _ & Hrun).
  apply install_ok in Hinst as (t & Hb & _ & ->).
  pose proof (logins_until_valid_frame _ _ _ _ Hrun) as Hframe.
  rewrite (loaded_frame s) in Hframe.
  assert (Hh : headers sv = headers s) by by rewrite Hframe.
  assert (Hf : files sv = files s) by by rewrite Hframe.
  assert (Hp : file_token sv = file_token s) by by rewrite Hframe.
  apply logins_until_valid_accepted in Hrun as (sx & Hacc).
  rewrite is_token_valid_cases in Hacc.
  destruct (truthy (bearer sx)) eqn:Hheld; simpl in Hacc; [|done].
  injection Hacc as Hsv Hres.
  assert (Hbx : bearer sx = PStr t) by (by rewrite <- Hb, <- Hsv).
  assert (Hhx : headers sx = headers s) by (by rewrite <- Hh, <- Hsv).
  exists t. split; [|split; [done|split; [|split; [|split]]]].
  - intros ->. by rewrite Hbx in Hheld.
  - simpl. by rewrite Hh.
  - simpl. by rewrite Hf, Hp.
  - simpl. rewrite <- Hsv. simpl. unfold probe. rewrite last_snoc. by rewrite Hhx, Hbx.
  - simpl. rewrite <- Hsv. simpl.
    destruct (server E (probe sx)) as [e|resp]; [by destruct e|].
    exists resp. split; [done|].
    by destruct (Z.eqb_spec (status_code resp) 200).
Qed.

(** X7. The cache is written before the header is set: when the token is
    accepted but the cache file cannot be written, [authenticate] raises
    [OSError] and leaves the headers without the new [authorization], the
    files as they were, and the accepted token in the instance. *)
Theorem authenticate_cache_write_failure k s sv fuel :
  logins_until_valid E k (loaded s) sv →
  file_token s ∈ locked s →
  k < fuel →
  authenticate E fuel s = (sv, Raise OSError)
  ∧ headers sv = headers s ∧ files sv = files s.
Proof.
  intros Hrun Hlocked Hfuel.
  pose proof (logins_until_valid_frame _ _ _ _ Hrun) as Hframe.
  rewrite (loaded_frame s) in Hframe.
  split; [|by rewrite Hframe].
  rewrite authenticate_unfold.
  rewrite (bind_ok _ _ _ _ _ (logins_until_valid_run _ _ _ _ Hrun _ Hfuel)).
  unfold install, read, write_token, bind.
  assert (Hp : file_token sv = file_token s) by by rewrite Hframe.
  assert (Hl : locked sv = locked s) by by rewrite Hframe.
  rewrite Hp, Hl. by destruct (decide (file_token s ∈ locked s)).
Qed.

(** X8. The loop has no cap of its own: with a validator that rejects
    every token and a login that always returns, [authenticate] never
    comes back. Within any budget it has called [get_bearer] once per
    round, and it has neither written the cache nor set the header. *)
Theorem authenticate_unbounded_retry :
  (∀ s, (is_token_valid E s).2 = Ok false) →
  (∀ s, ∃ b, (get_bearer E s).2 = Ok b) →
  ∀ fuel s,
    (authenticate E fuel s).2 = OutOfFuel
    ∧ get_bearer_calls (trace (authenticate E fuel s).1)
      = get_bearer_calls (trace s) + fuel
    ∧ files (authenticate E fuel s).1 = files s
    ∧ headers (authenticate E fuel s).1 = headers s.
Proof.
  intros Hreject Hlogin.
  assert (Hloop : ∀ fuel s,
    (validate_loop E fuel s).2 = OutOfFuel
    ∧ get_bearer_calls (trace (validate_loop E fuel s).1)
      = get_bearer_calls (trace s) + fuel
    ∧ files (validate_loop E fuel s).1 = files s
    ∧ headers (validate_loop E fuel s).1 = headers s).
  { induction fuel as [|fuel IH]; intros s; simpl.
    - repeat split; lia.
    - pose proof (Hreject s) as Hv.
      destruct (is_token_valid E s) as [s1 r1] eqn:Hv1. simpl in Hv. subst r1.
      rewrite (bind_ok _ _ _ _ _ Hv1).
      pose proof (is_token_valid_calls _ _ _ _ Hv1) as Hc1.
      destruct (is_token_valid_frame _ _ _ _ Hv1) as [(Hs1 & _)|(Hs1 & _)].
      all: destruct (Hlogin s1) as [b Hb];
        destruct (get_bearer E s1) as [s2 r2] eqn:Hg; simpl in Hb; subst r2;
        rewrite (bind_ok _ _ _ _ _ Hg); unfold modify, bind;
        destruct (get_bearer_frame _ _ _ _ Hg) as [Hs2 Hc2];
        destruct (IH (set_bearer b s2)) as (Hr & Hc & Hf & Hh);
        rewrite Hr, Hc, Hf, Hh; simpl; rewrite Hc2, Hc1, Hs2, Hs1;
        repeat split; lia. }
  intros fuel s. rewrite authenticate_unfold.
  destruct (Hloop fuel (loaded s)) as (Hr & Hc & Hf & Hh).
  assert (Hl : loaded s = set_bearer (bearer (loaded s)) s) by apply loaded_frame.
  unfold bind. destruct (validate_loop E fuel (loaded s)) as [sv r]. simpl in *.
  subst r. simpl. rewrite Hc, Hf, Hh, Hl. done.
Qed.

End SessionCoverage.

Section SessionCoverageExamples.
Import Py Float64 Regex MangasIo Props Scenarios.

Lemma token_cache_round_trip_witness :
  ∃ s', write_token (PStr cr_token) (start "") = (s', Ok tt)
    ∧ read_token (set_bearer PNone s') = (set_bearer (PStr lf_token) s', Ok tt)
    ∧ read_token (set_bearer PNone s') ≠ (set_bearer (PStr cr_token) s', Ok tt).
Proof.
  assert (Hw : write_token (PStr cr_token) (start "")
               = (set_files (<["cache/TOKEN_MANGAS_IO" := cr_token]> ∅) (start ""), Ok tt))
    by (vm_compute; reflexivity).
  destruct (token_cache_round_trip _ _ cr_token PNone Hw) as (_ & _ & Hread & Hsame).
  eexists. split; [exact Hw|]. split; [exact Hread|].
  intros H. apply Hsame in H. done.
Defined.

Lemma is_token_valid_accepts_only_success_witness :
  ∃ resp, server session_env (probe (set_bearer (PStr live_token) (start ""))) = inr resp
    ∧ status_code resp = 200%Z.
Proof.
  destruct (is_token_valid_accepts_only_success session_env
              (set_bearer (PStr live_token) (start "")) _ eq_refl)
    as (_ & _ & resp & d & Hreply & Hcode & _).
  by exists resp.
Defined.

Lemma is_token_valid_raises_witness :
  (is_token_valid array_env (set_bearer (PStr "tok") (start ""))).2 = Raise AttributeError.
Proof.
  destruct (is_token_valid_raises array_env (set_bearer (PStr "tok") (start "")) eq_refl)
    as (_ & _ & Hshape).
  by eapply Hshape.
Defined.

Lemma get_bearer_exchange_witness :
  (get_bearer session_env (start "")).2 = Ok (PStr live_token)
  ∧ trace (get_bearer session_env (start "")).1
    = [Prompt false; Prompt true; Post login_url ∅ (Login "reader" "reader")].
Proof.
  destruct (get_bearer_exchange session_env (start "") "reader" "reader" eq_refl eq_refl)
    as (Hstate & _ & Hreply).
  split; [|by rewrite Hstate].
  destruct (Hreply _ eq_refl) as [_ Hok]. by rewrite (Hok eq_refl _ eq_refl).
Defined.

Lemma authenticate_postcondition_witness :
  ∃ t, bearer (authenticate session_env 2 (cached "tok-old")).1 = PStr t ∧ t ≠ "".
Proof.
  assert (Hret : (authenticate session_env 2 (cached "tok-old")).2 = Ok tt)
    by (vm_compute; reflexivity).
  destruct (authenticate session_env 2 (cached "tok-old")) as [s' r] eqn:Hrun.
  simpl in Hret. subst r.
  destruct (authenticate_postcondition session_env 2 (cached "tok-old") s' Hrun)
    as (t & Hne & Hb & _).
  by exists t.
Defined.

Lemma authenticate_cache_write_failure_witness :
  (authenticate session_env 1 (sealed live_token)).2 = Raise OSError
  ∧ headers (authenticate session_env 1 (sealed live_token)).1 !! "authorization" = None.
Proof.
  destruct (authenticate_cache_write_failure session_env 0 (sealed live_token)
              (is_token_valid session_env (loaded (sealed live_token))).1 1)
    as (Hrun & Hh & _).
  - apply luv_accept. vm_compute. reflexivity.
  - simpl. by apply elem_of_singleton.
  - lia.
  - rewrite Hrun. simpl. split; [done|]. rewrite Hh. vm_compute. reflexivity.
Defined.

Lemma authenticate_unbounded_retry_witness :
  (authenticate failing_env 3 (start "")).2 = OutOfFuel
  ∧ get_bearer_calls (trace (authenticate failing_env 3 (start "")).1) = 3.
Proof.
  destruct (authenticate_unbounded_retry failing_env) with (fuel := 3) (s := start "")
    as (Hout & Hcalls & _).
  - intros s. rewrite is_token_valid_cases. by destruct (truthy (bearer s)).
  - intros s. rewrite get_bearer_cases. simpl. eauto.
  - split; [exact Hout|exact Hcalls].
Defined.

End SessionCoverageExamples.

(** ** Further lemmas: reader addresses *)

Section AddressCoverage.
Import Py Float64 Regex MangasIo Props Scenarios.
Implicit Types (k : string → list string → option (list string)).

#[local] Arguments String.append !_ _ / : simpl nomatch.

Lemma str_app_assoc (a b c : string) : (a +:+ b) +:+ c = a +:+ b +:+ c.
Proof. induction a as [|x a IH]; simpl; [done|]. by f_equal. Qed.

Lemma str_length_app (a b : string) :
  String.length (a +:+ b) = String.length a + String.length b.
Proof. induction a as [|x a IH]; simpl; [done|]. by f_equal. Qed.

Lemma str_app_empty (a : string) : a +:+ "" = a.
Proof. induction a as [|x a IH]; simpl; [done|]. by f_equal. Qed.

Lemma all_chars_app p (a b : string) :
  all_chars p (a +:+ b) = all_chars p a && all_chars p b.
Proof. induction a as [|x a IH]; simpl; [done|]. by rewrite IH, andb_assoc. Qed.

Lemma consumed_app g rest : consumed (g +:+ rest) rest = g.
Proof.
  unfold consumed. rewrite str_length_app.
  replace (String.length g + String.length rest - String.length rest)
    with (String.length g) by lia.
  induction g as [|x g IH]; simpl.
  - by destruct rest.
  - by rewrite IH.
Qed.

(** A literal eats itself. *)
Lemma rmatch_lit_app p : ∀ fuel s caps k,
  rmatch fuel (lit p) (p +:+ s) caps k = k s caps.
Proof.
  induction p as [|c p IH]; intros fuel s caps k; simpl.
  - by rewrite rmatch_eps.
  - rewrite rmatch_seq, rmatch_chars, Ascii.eqb_refl. apply IH.
Qed.

Lemma rmatch_plus_stop p fuel s caps k :
  starts_in p s = false → rmatch fuel (Plus (Chars p)) s caps k = None.
Proof.
  intros Hs. destruct fuel as [|fuel]; [done|].
  rewrite rmatch_plus, rmatch_chars. destruct s as [|c s]; [done|].
  simpl in Hs. by rewrite Hs.
Qed.

(** A repeated class is greedy: it eats the whole run when the rest of the
    pattern can go on from there. *)
Lemma rmatch_plus_greedy p : ∀ g rest fuel caps k r,
  g ≠ "" → all_chars p g = true → starts_in p rest = false →
  String.length (g +:+ rest) < fuel →
  k rest caps = Some r →
  rmatch fuel (Plus (Chars p)) (g +:+ rest) caps k = Some r.
Proof.
  induction g as [|c g IH]; intros rest fuel caps k r Hne Hall Hstop Hfuel Hk; [done|].
  destruct fuel as [|fuel]; [simpl in Hfuel; lia|].
  simpl in Hall. apply andb_true_iff in Hall as [Hc Hg].
  cbn [String.append]. rewrite rmatch_plus, rmatch_chars, Hc.
  destruct g as [|c' g].
  - cbn [String.append]. by rewrite rmatch_plus_stop.
  - rewrite (IH rest fuel caps k r); [done|done|done|done| |done].
    cbn [String.append String.length] in *. lia.
Qed.

(** The inversions, with what was eaten. *)
Lemma rmatch_lit_split p : ∀ fuel s caps k res,
  rmatch fuel (lit p) s caps k = Some res →
  ∃ s', s = p +:+ s' ∧ k s' caps = Some res.
Proof.
  induction p as [|c p IH]; intros fuel s caps k res; simpl.
  - rewrite rmatch_eps. eauto.
  - rewrite rmatch_seq, rmatch_chars.
    destruct s as [|c' s']; [done|].
    destruct (Ascii.eqb_spec c c') as [->|]; [|done].
    intros H. apply IH in H as (s'' & -> & Hk). eauto.
Qed.

Lemma rmatch_plus_chars_split p fuel : ∀ s caps k res,
  rmatch fuel (Plus (Chars p)) s caps k = Some res →
  ∃ g s', s = g +:+ s' ∧ g ≠ "" ∧ all_chars p g = true ∧ k s' caps = Some res.
Proof.
  induction fuel as [|fuel IH]; intros s caps k res; [done|].
  rewrite rmatch_plus, rmatch_chars.
  destruct s as [|c s']; [done|]. destruct (p c) eqn:Hc; [|done].
  destruct (rmatch fuel (Plus (Chars p)) s' caps k) as [c'|] eqn:Hmore.
  - intros [= ->]. apply IH in Hmore as (g & s'' & -> & _ & Hg & Hk).
    exists (String c g), s''. simpl. by rewrite Hc, Hg.
  - intros Hk. exists (String c ""), s'. simpl. by rewrite Hc.
Qed.

(** What a match of the pattern says about the text and its groups. *)
Lemma matches_URL_PATTERN_split u res :
  matches URL_PATTERN u = Some res →
  ∃ g c rest,
    res = [g; c] ∧ u = reader_address g c rest
    ∧ g ≠ "" ∧ all_chars not_slash g = true
    ∧ c ≠ "" ∧ all_chars digit_or_dot c = true.
Proof.
  unfold matches, URL_PATTERN.
  rewrite rmatch_seq. intros H.
  apply rmatch_lit_split in H as (s1 & -> & H).
  rewrite rmatch_seq, rmatch_group in H.
  apply rmatch_plus_chars_split in H as (g & s2 & -> & Hg & Hgall & H).
  rewrite rmatch_seq in H. apply rmatch_lit_split in H as (s3 & -> & H).
  rewrite rmatch_group in H.
  apply rmatch_plus_chars_split in H as (c & rest & -> & Hc & Hcall & [= <-]).
  exists g, c, rest. rewrite !consumed_app. done.
Qed.

Lemma search_URL_PATTERN_split u : ∀ res,
  search URL_PATTERN u = Some res →
  ∃ g c, res = [g; c]
    ∧ g ≠ "" ∧ all_chars not_slash g = true
    ∧ c ≠ "" ∧ all_chars digit_or_dot c = true.
Proof.
  induction u as [|x u IH]; intros res; cbn [search].
  - destruct (matches URL_PATTERN "") eqn:Hm; [|done].
    intros [= <-]. apply matches_URL_PATTERN_split in Hm as (g & c & _ & -> & _ & H).
    by exists g, c.
  - destruct (matches URL_PATTERN (String x u)) eqn:Hm.
    + intros [= <-]. apply matches_URL_PATTERN_split in Hm as (g & c & _ & -> & _ & H).
      by exists g, c.
    + apply IH.
Qed.

Lemma matches_reader_address g c rest :
  g ≠ "" → all_chars not_slash g = true →
  c ≠ "" → all_chars digit_or_dot c = true →
  starts_in digit_or_dot rest = false →
  matches URL_PATTERN (reader_address g c rest) = Some [g; c].
Proof.
  intros Hg Hgall Hc Hcall Hrest.
  unfold matches, URL_PATTERN, reader_address, reader_prefix.
  set (fuel := S _).
  assert (Hfuel : String.length (g +:+ "/" +:+ c +:+ rest) < fuel).
  { unfold fuel. rewrite (str_length_app "https://www.mangas.io/lire/"). lia. }
  clearbody fuel.
  rewrite rmatch_seq, rmatch_lit_app, rmatch_seq, rmatch_group.
  apply rmatch_plus_greedy; [done..|].
  rewrite consumed_app, rmatch_seq.
  change ("/" +:+ c +:+ rest) with ("/" +:+ (c +:+ rest)) in *.
  rewrite rmatch_lit_app, rmatch_group.
  apply rmatch_plus_greedy; [done..| |by rewrite consumed_app].
  rewrite str_length_app in Hfuel. simpl in Hfuel. lia.
Qed.

Lemma search_of_matches r u caps :
  matches r u = Some caps → search r u = Some caps.
Proof. intros H. destruct u; simpl; by rewrite H. Qed.

(** Any text splits into its longest start inside a class and a rest that
    does not start in it. *)
Lemma span_class p : ∀ s,
  ∃ a b, s = a +:+ b ∧ all_chars p a = true ∧ starts_in p b = false.
Proof.
  induction s as [|c s (a & b & -> & Ha & Hb)].
  - by exists "", "".
  - destruct (p c) eqn:Hc.
    + exists (String c a), b. simpl. by rewrite Hc, Ha.
    + exists "", (String c (a +:+ b)). simpl. by rewrite Hc.
Qed.

(** X9. An address built from a slug and a chapter segment parses back to
    them: for a non-empty slug without slash, a non-empty chapter segment
    of digits and dots, and a tail that does not go on with a digit or a
    dot, the pattern matches with exactly these two groups, the plugin
    claims the address, and [_parse_url] on a fresh instance stores the
    slug and, when the segment is a number, its float. *)
Theorem reader_address_parses_back g c rest :
  g ≠ "" → all_chars not_slash g = true →
  c ≠ "" → all_chars digit_or_dot c = true →
  starts_in digit_or_dot rest = false →
  search URL_PATTERN (reader_address g c rest) = Some [g; c]
  ∧ is_valid_url (reader_address g c rest) = true
  ∧ ∀ s, url s = reader_address g c rest → slug s = "" →
      slug (_parse_url s).1 = g
      ∧ ∀ f, float_of_string c = Ok f →
          (_parse_url s).2 = Ok tt ∧ chapter_nb (_parse_url s).1 = ChFloat f.
Proof.
  intros Hg Hgall Hc Hcall Hrest.
  pose proof (matches_reader_address g c rest Hg Hgall Hc Hcall Hrest) as Hm.
  pose proof (search_of_matches _ _ _ Hm) as Hs.
  split; [done|]. split; [unfold is_valid_url; by rewrite Hm|].
  intros s Hurl Hslug. unfold _parse_url. rewrite Hslug, Hurl, Hs. simpl.
  split; [by destruct (float_of_string c)|].
  by intros f ->.
Qed.

(** X10. The plugin claims exactly the addresses that start with the
    reader prefix, go on with a non-empty slug without slash, a slash, and
    at least one digit or dot; what follows does not matter. *)
Theorem is_valid_url_shape u :
  is_valid_url u = true
  ↔ ∃ g c rest,
      u = reader_address g c rest
      ∧ g ≠ "" ∧ all_chars not_slash g = true
      ∧ c ≠ "" ∧ all_chars digit_or_dot c = true.
Proof.
  unfold is_valid_url. split.
  - destruct (matches URL_PATTERN u) as [res|] eqn:Hm; [|done]. intros _.
    apply matches_URL_PATTERN_split in Hm as (g & c & rest & _ & H).
    by exists g, c, rest.
  - intros (g & c & rest & -> & Hg & Hgall & Hc & Hcall).
    destruct (span_class digit_or_dot rest) as (c2 & rest2 & -> & Hc2 & Hrest2).
    assert (Haddr : reader_address g c (c2 +:+ rest2)
                    = reader_address g (c +:+ c2) rest2).
    { unfold reader_address. by rewrite (str_app_assoc c c2 rest2). }
    rewrite Haddr, matches_reader_address; [done|done|done| | |done].
    + by destruct c.
    + by rewrite all_chars_app, Hcall, Hc2.
Qed.


Lemma dots_app (a b : string) : dots (a +:+ b) = dots a + dots b.
Proof. induction a as [|x a IH]; simpl; [done|]. rewrite IH. lia. Qed.

Lemma has_digit_app (a b : string) : has_digit (a +:+ b) = has_digit a || has_digit b.
Proof. induction a as [|x a IH]; simpl; [done|]. by rewrite IH, orb_assoc. Qed.

Lemma digit_is_no_dot c : is_digit c = true → Ascii.eqb c "." = false.
Proof.
  unfold is_digit. intros H. destruct (Ascii.eqb_spec c ".") as [->|]; [|done].
  by vm_compute in H.
Qed.

(** A run of digits holds no dot, and a digit unless it is empty. *)
Lemma digit_run ds :
  all_chars is_digit ds = true →
  dots ds = 0 ∧ has_digit ds = negb (Nat.eqb (String.length ds) 0).
Proof.
  induction ds as [|c ds IH]; simpl; [done|].
  intros [Hc Hds]%andb_true_iff. destruct (IH Hds) as [Hd _].
  by rewrite (digit_is_no_dot c Hc), Hd, Hc.
Qed.

(** What [digits] reads: the longest run of digits at the start. *)
Lemma digits_split s : ∀ acc n acc' n' rest,
  digits s acc n = (acc', n', rest) →
  ∃ ds, s = ds +:+ rest ∧ all_chars is_digit ds = true
    ∧ n' = n + String.length ds ∧ starts_in is_digit rest = false.
Proof.
  induction s as [|c s IH]; intros acc n acc' n' rest; simpl.
  - intros [= <- <- <-]. exists "". simpl. repeat split; lia.
  - destruct (is_digit c) eqn:Hc.
    + intros H. apply IH in H as (ds & -> & Hds & -> & Hrest).
      exists (String c ds). simpl. rewrite Hc, Hds. repeat split; [lia|done].
    + intros [= <- <- <-]. exists "". simpl. rewrite Hc. repeat split; lia.
Qed.

(** In a text of digits and dots, what does not start with a digit and is
    not empty starts with a dot. *)
Lemma no_digit_then_dot x rest :
  all_chars digit_or_dot (String x rest) = true →
  starts_in is_digit (String x rest) = false →
  Ascii.eqb x "." = true ∧ all_chars digit_or_dot rest = true.
Proof.
  simpl. unfold digit_or_dot at 1. intros [Hx Hrest]%andb_true_iff Hnd.
  rewrite Hnd in Hx. done.
Qed.

(** [float] on a text of digits and dots: it raises exactly on two dots or
    more and on no digit at all. *)
Lemma float_of_string_outcome c :
  all_chars digit_or_dot c = true →
  if (2 <=? dots c) || negb (has_digit c)
  then float_of_string c = Raise ValueError
  else ∃ f, float_of_string c = Ok f.
Proof.
  intros Hall. unfold float_of_string.
  destruct (digits c 0 0) as [[ip ni] rest] eqn:Hd.
  apply digits_split in Hd as (ds & -> & Hds & -> & Hrest).
  destruct (digit_run ds Hds) as [Hdots Hhas].
  rewrite all_chars_app in Hall. apply andb_true_iff in Hall as [_ Hall].
  rewrite dots_app, has_digit_app, Hdots, Hhas. simpl.
  destruct rest as [|x rest].
  - simpl. rewrite orb_false_r.
    destruct (String.length ds) as [|n]; simpl; eauto.
  - destruct (no_digit_then_dot x rest Hall Hrest) as [Hx Hall'].
    simpl dots. rewrite !Hx.
    destruct (digits rest ip 0) as [[all nf] tail] eqn:Hd2.
    apply digits_split in Hd2 as (ds2 & -> & Hds2 & -> & Htail).
    destruct (digit_run ds2 Hds2) as [Hdots2 Hhas2].
    rewrite all_chars_app in Hall'. apply andb_true_iff in Hall' as [_ Hall'].
    rewrite dots_app, Hdots2. simpl has_digit.
    assert (Hnd : is_digit x = false) by done.
    rewrite Hnd, has_digit_app, Hhas2. simpl.
    destruct tail as [|y tail].
    + simpl.
      destruct (String.length ds) as [|n], (String.length ds2) as [|m]; simpl; eauto.
    + destruct (no_digit_then_dot y tail Hall' Htail) as [Hy _].
      simpl. by rewrite Hy.
Qed.

End AddressCoverage.

Section ParseCoverage.
Import Py Float64 Regex MangasIo Props Scenarios.
Variable E : environment.

(** X11. The pattern admits chapter segments that are no numbers.
    [_parse_url] on a fresh instance raises [ValueError] exactly when the
    matched chapter segment holds two dots or more, or no digit; otherwise
    it returns. Either way the slug is stored. *)
Theorem parse_url_raises_on_bad_chapter s g c :
  slug s = "" →
  search URL_PATTERN (url s) = Some [g; c] →
  slug (_parse_url s).1 = g
  ∧ ((_parse_url s).2 = Raise ValueError ↔ 2 ≤ dots c ∨ has_digit c = false)
  ∧ ((_parse_url s).2 = Ok tt ↔ dots c ≤ 1 ∧ has_digit c = true).
Proof.
  intros Hslug Hm.
  pose proof (search_URL_PATTERN_split _ _ Hm)
    as (g' & c' & [= <- <-] & _ & _ & _ & Hall).
  pose proof (float_of_string_outcome c Hall) as Hout.
  unfold _parse_url. rewrite Hslug, Hm. simpl.
  destruct (Nat.leb_spec 2 (dots c)) as [Hd|Hd]; simpl in Hout.
  - rewrite Hout. simpl. intuition (try discriminate; try lia).
  - destruct (has_digit c); simpl in Hout.
    + destruct Hout as [f ->]. simpl. intuition (try discriminate; try lia).
    + rewrite Hout. simpl. intuition (try discriminate; try lia).
Qed.

(** X12. A chapter segment that is no number fails the first metadata
    fetch only: the first [get_book_infos] raises [ValueError] before any
    request is sent, leaving the slug and the segment as text in the
    instance; the next call skips the parse and sends the query with the
    chapter number as that text. *)
Theorem get_book_infos_after_bad_chapter s g c :
  slug s = "" →
  search URL_PATTERN (url s) = Some [g; c] →
  float_of_string c = Raise ValueError →
  get_book_infos E s = (half_parsed g c s, Raise ValueError)
  ∧ trace (half_parsed g c s) = trace s
  ∧ get_book_infos E (half_parsed g c s)
    = (set_trace (metadata_query (half_parsed g c s)) (half_parsed g c s),
       rbind (of_sum (server E (metadata_query (half_parsed g c s)))) digest)
  ∧ metadata_query (half_parsed g c s)
    = trace s ++ [Post api_url (headers s) (GetReadingChapter g (ChStr c))].
Proof.
  intros Hslug Hm Hfloat.
  pose proof (search_URL_PATTERN _ _ Hm) as (g' & c' & [= <- <-] & Hg).
  assert (Hfirst : _parse_url s = (half_parsed g c s, Raise ValueError)).
  { unfold _parse_url. by rewrite Hslug, Hm, Hfloat. }
  assert (Hnext : _parse_url (half_parsed g c s) = (half_parsed g c s, Ok tt)).
  { by apply _parse_url_skip. }
  rewrite !get_book_infos_unfold, Hfirst, Hnext. done.
Qed.

End ParseCoverage.

Section AddressCoverageExamples.
Import Py Float64 Regex MangasIo Props Scenarios.

Lemma reader_address_parses_back_witness :
  search URL_PATTERN "https://www.mangas.io/lire/demo-slug/12.5?page=2"
  = Some ["demo-slug"; "12.5"]
  ∧ is_valid_url "https://www.mangas.io/lire/demo-slug/12.5?page=2" = true.
Proof.
  destruct (reader_address_parses_back "demo-slug" "12.5" "?page=2")
    as (Hsearch & Hvalid & _); try done.
Defined.

Lemma is_valid_url_shape_witness :
  is_valid_url "https://www.mangas.io/lire/demo-slug/3" = true
  ∧ ¬ (∃ g c rest, "https://www.mangas.io/lire//3" = reader_address g c rest
        ∧ g ≠ "" ∧ all_chars not_slash g = true
        ∧ c ≠ "" ∧ all_chars digit_or_dot c = true).
Proof.
  split.
  - apply is_valid_url_shape. by exists "demo-slug", "3", "".
  - intros H. apply is_valid_url_shape in H. by vm_compute in H.
Defined.

Lemma parse_url_raises_on_bad_chapter_witness :
  (_parse_url (start "https://www.mangas.io/lire/demo-slug/1.2.3")).2 = Raise ValueError
  ∧ (_parse_url (start "https://www.mangas.io/lire/demo-slug/12.")).2 = Ok tt.
Proof.
  split.
  - apply (parse_url_raises_on_bad_chapter
             (start "https://www.mangas.io/lire/demo-slug/1.2.3") "demo-slug" "1.2.3");
      [reflexivity|reflexivity|]. left. simpl. lia.
  - apply (parse_url_raises_on_bad_chapter
             (start "https://www.mangas.io/lire/demo-slug/12.") "demo-slug" "12.");
      [reflexivity|reflexivity|]. split; [simpl; lia|reflexivity].
Defined.

Lemma get_book_infos_after_bad_chapter_witness :
  (get_book_infos library_env (start "https://www.mangas.io/lire/demo-slug/1.2.3")).2
  = Raise ValueError
  ∧ trace (get_book_infos library_env
             (get_book_infos library_env
                (start "https://www.mangas.io/lire/demo-slug/1.2.3")).1).1
    = [Post api_url ∅ (GetReadingChapter "demo-slug" (ChStr "1.2.3"))].
Proof.
  destruct (get_book_infos_after_bad_chapter library_env
              (start "https://www.mangas.io/lire/demo-slug/1.2.3") "demo-slug" "1.2.3"
              eq_refl eq_refl eq_refl) as (Hfirst & _ & Hnext & Hquery).
  rewrite Hfirst. cbn [fst snd]. split; [done|]. rewrite Hnext. cbn [fst].
  rewrite Hquery. reflexivity.
Defined.

End AddressCoverageExamples.

(** ** Further lemmas: metadata resolution *)

Section MetadataCoverage.
Import Py Float64 Regex MangasIo Props Scenarios.
Variable E : environment.

Tactic Notation "rbind_step" hyp(H) ident(x) ident(Hx) :=
  apply rbind_inv_ok in H as (x & Hx & H); cbv beta zeta in H.

(** X13. A series the backend does not know raises: when the answer has
    status 200 and its payload is an object with a non-empty data object,
    [get_book_infos] raises [KeyError] for a data object without manga
    member and [TypeError] for a manga member that is no object (null, for
    one); it does not return the empty result. *)
Theorem get_book_infos_unknown_series s s1 resp d top_data :
  _parse_url s = (s1, Ok tt) →
  server E (metadata_query s1) = inr resp →
  status_code resp = 200%Z →
  json resp = inr (PDict d) →
  assoc "data" d = Some (PDict top_data) →
  top_data ≠ [] →
  (assoc "manga" top_data = None →
   (get_book_infos E s).2 = Raise (KeyError "manga"))
  ∧ (∀ m, assoc "manga" top_data = Some m → (∀ md, m ≠ PDict md) →
     (get_book_infos E s).2 = Raise TypeError).
Proof.
  intros Hparse Hreply Hcode Hjson Hdata Hfull.
  rewrite get_book_infos_unfold, Hparse, Hreply. simpl.
  unfold digest. rewrite Hcode, Hjson. simpl.
  assert (Hd : negb (Nat.eqb (length d) 0) = true) by (by destruct d).
  rewrite Hd, Hdata. simpl.
  assert (Ht : negb (Nat.eqb (length top_data) 0) = true) by (by destruct top_data).
  rewrite Ht. simpl. unfold _fill_infos. simpl. rewrite Hdata. simpl.
  split.
  - by intros ->.
  - intros m -> Hm. simpl. destruct m; try done. by destruct (Hm entries).
Qed.

(** X14. A metadata fetch sends at most one request, and that one is the
    chapter query for the slug and chapter number the instance holds
    afterwards, with the instance's headers: nothing is sent when the parse
    step raises, exactly one request otherwise, whatever was fetched
    before. The token, the headers and the files stay as they were. *)
Theorem get_book_infos_exchange s :
  headers (get_book_infos E s).1 = headers s
  ∧ bearer (get_book_infos E s).1 = bearer s
  ∧ files (get_book_infos E s).1 = files s
  ∧ ((_parse_url s).2 ≠ Ok tt → trace (get_book_infos E s).1 = trace s)
  ∧ ((_parse_url s).2 = Ok tt →
     trace (get_book_infos E s).1
     = trace s ++ [Post api_url (headers s)
                     (GetReadingChapter (slug (get_book_infos E s).1)
                                        (chapter_nb (get_book_infos E s).1))]).
Proof.
  rewrite get_book_infos_unfold.
  assert (Hframe : headers (_parse_url s).1 = headers s
                   ∧ bearer (_parse_url s).1 = bearer s
                   ∧ files (_parse_url s).1 = files s
                   ∧ trace (_parse_url s).1 = trace s).
  { unfold _parse_url. destruct (negb _); [done|].
    destruct (search URL_PATTERN (url s)) as [[|g1 [|g2 [|]]]|]; try done.
    by destruct (float_of_string g2). }
  destruct Hframe as (Hh & Hb & Hf & Ht).
  destruct (_parse_url s) as [s1 [[]| |]]; simpl in *.
  - repeat split; try done. intros _. unfold metadata_query. by rewrite Ht, Hh.
  - repeat split; done.
  - repeat split; done.
Qed.

Lemma last_holder_split chapter_id vs :
  match last_holder chapter_id vs with
  | Some v =>
      ∃ before after, vs = before ++ v :: after
        ∧ holds_chapter chapter_id v = true
        ∧ Forall (λ w, holds_chapter chapter_id w = false) after
  | None => Forall (λ w, holds_chapter chapter_id w = false) vs
  end.
Proof.
  induction vs as [|v vs IH]; [by constructor|].
  rewrite last_holder_cons. destruct (last_holder chapter_id vs) as [w|].
  - destruct IH as (before & after & -> & Hw & Hafter).
    by exists (v :: before), after.
  - destruct (holds_chapter chapter_id v) eqn:Hv.
    + by exists [], vs.
    + by constructor.
Qed.

(** X15. The volume fields of a result are those of the last volume of the
    list whose chapters hold the id of the target chapter: a volume after
    which no volume holds it; they are empty when no volume holds it. *)
Theorem fill_infos_volume_is_last_holder data infos :
  _fill_infos data = Ok infos →
  ∃ chapter_id vs,
    chapter_field data "_id" = Ok chapter_id
    ∧ rbind (manga_field data "volumes") iter = Ok vs
    ∧ ((Forall (λ w, holds_chapter chapter_id w = false) vs
        ∧ volume infos = "" ∧ description infos = PStr "")
       ∨ (∃ before v after,
            vs = before ++ v :: after
            ∧ holds_chapter chapter_id v = true
            ∧ Forall (λ w, holds_chapter chapter_id w = false) after
            ∧ volume_fields v = Some (volume infos, description infos))).
Proof.
  intros H.
  apply fill_infos_inv in H
    as (chapter_id & volumes & vs & _ & _ & Hid & Hvol & Hvs & Hscan & _).
  exists chapter_id, vs. split; [done|]. split; [by rewrite Hvol|].
  apply scan_volumes_spec in Hscan.
  pose proof (last_holder_split chapter_id vs) as Hsplit.
  destruct (last_holder chapter_id vs) as [v|].
  - right. destruct Hsplit as (before & after & -> & Hv & Hafter).
    by exists before, v, after.
  - left. by injection Hscan as <- <-.
Qed.

Lemma dict_set_length_le k v d : length (dict_set k v d) ≤ S (length d).
Proof.
  induction d as [|[k0 v0] d IH]; simpl; [done|].
  destruct (eqb k0 k); simpl; lia.
Qed.

Lemma build_pages_map_length_le ps : ∀ m t,
  build_pages_map ps m = Ok t → length t ≤ length m + length ps.
Proof.
  induction ps as [|p ps IH]; intros m t H; simpl in H.
  - injection H as <-. lia.
  - rbind_step H n Hn. rbind_step H i Hi. rbind_step H m' Hset.
    unfold dict_setitem in Hset. destruct (hashable n); [|done].
    injection Hset as <-. apply IH in H.
    pose proof (dict_set_length_le n i m). simpl. lia.
Qed.

(** X16. The page URL list of a result holds empty placeholders only, and
    never more of them than the pages list of the response has entries. *)
Theorem fill_infos_placeholders data infos :
  _fill_infos data = Ok infos →
  Forall (λ u, u = "") (page_urls infos)
  ∧ ∀ ps, chapter_field data "pages" = Ok (PList ps) →
      length (page_urls infos) ≤ length ps.
Proof.
  intros H.
  apply fill_infos_inv in H
    as (_ & _ & _ & pages_data & table & _ & _ & _ & _ & _ & Hpages & Htable & _ & Hurls).
  rewrite Hurls. split.
  - apply Forall_forall. intros u Hu. by apply list_elem_of_In, repeat_spec in Hu.
  - intros ps Hps. rewrite Hpages in Hps. injection Hps as ->.
    rewrite repeat_length. destruct ps as [|p ps]; simpl in Htable.
    + by rewrite Htable.
    + destruct Htable as (ps' & [= <-] & Hbuild).
      by apply build_pages_map_length_le in Hbuild.
Qed.

Lemma strings_of_ok l : ∀ ss, strings_of l = Ok ss → l = map PStr ss.
Proof.
  induction l as [|x l IH]; intros ss; simpl.
  - by intros [= <-].
  - destruct x; try done. intros H.
    apply rbind_inv_ok in H as (ss' & Hss & [= <-]). simpl.
    by rewrite (IH _ Hss).
Qed.

Lemma author_names_ok l : ∀ names,
  author_names l = Ok names →
  Forall2 (λ a n, getitem a "name" = Ok n) l names.
Proof.
  induction l as [|a l IH]; intros names H; simpl in H.
  - injection H as <-. constructor.
  - rbind_step H n Hn. rbind_step H ns Hns. injection H as <-.
    constructor; [done|by apply IH].
Qed.

(** X17. How the other fields of a result are read off the response: the
    title is the title member of the series; the direction is right to
    left exactly when the direction member equals rtl, in this spelling,
    and left to right otherwise; the chapter is the text of the number of
    the target chapter; the authors are the name members of the authors
    list, which must all be texts, joined by a comma and a space. *)
Theorem fill_infos_fields data infos :
  _fill_infos data = Ok infos →
  manga_field data "title" = Ok (title infos)
  ∧ (∃ direction, manga_field data "direction" = Ok direction
       ∧ read_direction infos = if eqb direction (PStr "rtl") then RTOL else LTOR)
  ∧ (∃ number, chapter_field data "number" = Ok number
       ∧ chapter infos = str number)
  ∧ (∃ authors_list names,
       rbind (manga_field data "authors") iter = Ok authors_list
       ∧ Forall2 (λ a n, getitem a "name" = Ok (PStr n)) authors_list names
       ∧ authors infos = String.concat ", " names).
Proof.
  unfold _fill_infos. intros H.
  rbind_step H top_data Htop. rbind_step H manga_data Hmanga.
  rbind_step H title' Htitle. rbind_step H direction Hdir.
  rbind_step H authors_data Hauthors. rbind_step H authors_list Hlist.
  rbind_step H names Hnames. rbind_step H authors' Hjoin.
  rbind_step H chapter_data Hchapter. rbind_step H chapter_id Hid.
  rbind_step H volumes Hvolumes. rbind_step H vs Hvs.
  rbind_step H found Hscan. destruct found as [volume_number volume_desc].
  rbind_step H number Hnumber. rbind_step H page_count Hcount.
  rbind_step H pages_data Hpages. rbind_step H table Htable.
  injection H as <-. simpl.
  unfold chapter_field, manga_field. rewrite Htop. simpl. rewrite Hmanga. simpl.
  rewrite Hchapter, Hauthors. simpl.
  split; [done|]. split; [by exists direction|]. split; [by exists number|].
  unfold join in Hjoin. apply rbind_inv_ok in Hjoin as (ss & Hss & [= <-]).
  apply strings_of_ok in Hss as ->. apply author_names_ok in Hnames.
  exists authors_list, ss. split; [done|]. split; [|done].
  by apply Forall2_fmap_r in Hnames.
Qed.

(** X18. A result of the metadata fetch comes without Page Identifier
    Table exactly when it is the empty result: every result built from a
    response carries a table, be it an empty one. *)
Theorem get_book_infos_table_absent s s1 infos :
  get_book_infos E s = (s1, Ok infos) →
  table_of infos = None ↔ infos = empty_infos.
Proof.
  rewrite get_book_infos_unfold.
  destruct (_parse_url s) as [s0 [[]| |]]; [|done|done].
  intros [= _ H]. apply rbind_inv_ok in H as (resp & _ & H).
  assert (Hfill : ∀ data, _fill_infos data = Ok infos →
                  table_of infos = None ↔ infos = empty_infos).
  { intros data Hdata.
    apply fill_infos_inv in Hdata as (_ & _ & _ & _ & table & _ & _ & _ & _ & _ & _ & _ & Hc & _).
    unfold table_of. rewrite Hc. simpl. split; [done|].
    intros ->. done. }
  unfold digest in H.
  destruct (negb (status_code resp =? 200)%Z); [by injection H as <-|].
  apply rbind_inv_ok in H as (data & _ & H).
  destruct (negb (truthy data)); [by injection H as <-|].
  apply rbind_inv_ok in H as (top_data & _ & H).
  destruct (negb (truthy top_data)); [by injection H as <-|].
  by eapply Hfill.
Qed.

End MetadataCoverage.

Section MetadataCoverageExamples.
Import Py Float64 Regex MangasIo Props Scenarios.

Lemma get_book_infos_unknown_series_witness :
  (get_book_infos
     (fixed_env (answer 200 (PDict [("data", PDict [("manga", PNone)])]))) reader).2
  = Raise TypeError.
Proof.
  destruct (get_book_infos_unknown_series
              (fixed_env (answer 200 (PDict [("data", PDict [("manga", PNone)])])))
              reader _ _ _ [("manga", PNone)] eq_refl eq_refl eq_refl eq_refl eq_refl)
    as [_ Hnull]; [done|].
  by apply (Hnull PNone).
Defined.

Lemma fill_infos_volume_is_last_holder_witness :
  ∃ infos, _fill_infos two_volumes = Ok infos ∧ volume infos = "2".
Proof.
  eexists. split; [reflexivity|].
  destruct (fill_infos_volume_is_last_holder two_volumes _ eq_refl)
    as (chapter_id & vs & _ & _ & _).
  reflexivity.
Defined.

Lemma fill_infos_placeholders_witness :
  ∃ infos, _fill_infos repeated_number = Ok infos ∧ length (page_urls infos) ≤ 2.
Proof.
  eexists. split; [reflexivity|].
  destruct (fill_infos_placeholders repeated_number _ eq_refl) as [_ Hlen].
  exact (Hlen [page 1 "a"; page 1 "b"] eq_refl).
Defined.

Lemma fill_infos_fields_witness :
  ∃ infos, _fill_infos two_pages = Ok infos
    ∧ manga_field two_pages "title" = Ok (title infos)
    ∧ read_direction infos = RTOL.
Proof.
  eexists. split; [reflexivity|].
  destruct (fill_infos_fields two_pages _ eq_refl) as (Htitle & _ & _ & _).
  split; [exact Htitle|reflexivity].
Defined.

Lemma get_book_infos_table_absent_witness :
  ∃ infos, (get_book_infos failing_env reader).2 = Ok infos ∧ table_of infos = None.
Proof.
  eexists. split; [reflexivity|].
  by apply (get_book_infos_table_absent failing_env reader _ _ eq_refl).
Defined.

End MetadataCoverageExamples.

(** ** Further lemmas: page resolution *)

Section PageCoverage.
Import Py Float64 Regex MangasIo Props Scenarios.
Variable E : environment.

(** A subscript returns or raises; it never runs out of fuel. *)
Lemma getitem_cases v key :
  (∃ x, getitem v key = Ok x) ∨ (∃ e, getitem v key = Raise e).
Proof.
  destruct v; simpl; eauto. destruct (assoc key entries); eauto.
Qed.

(** The page resolver, case by case. *)
Lemma before_download_page_cases page_num u s :
  before_download_page E page_num u s
  = match get_book_infos E s with
    | (s1, Ok infos) =>
        match table_lookup infos (page_num + 1) with
        | Some id =>
            if truthy id then
              (set_trace (page_request s1 id) s1,
               Ok match server E (page_request s1 id) with
                  | inr resp =>
                      if (status_code resp =? 200)%Z then
                        match rbind (of_sum (json resp)) image_url with
                        | Ok v => v
                        | _ => PStr ""
                        end
                      else PStr ""
                  | inl _ => PStr ""
                  end)
            else (s1, Ok (PStr ""))
        | None => (s1, Ok (PStr ""))
        end
    | (s1, Raise e) => (s1, Raise e)
    | (s1, OutOfFuel) => (s1, OutOfFuel)
    end.
Proof.
  unfold before_download_page, bind at 1.
  destruct (get_book_infos E s) as [s1 [infos| |]]; [|done|done].
  unfold table_lookup, table_of.
  destruct (custom_fields infos) as [fields|]; [|done].
  destruct (assoc "pages_map" fields) as [pages_map|]; [|done].
  destruct (dict_get (PInt (page_num + 1)) pages_map) as [id|]; [|done].
  destruct (truthy id); [|done]. simpl.
  unfold catch, bind, http_post, post, page_request, ret, lift, image_url. simpl.
  destruct (server E _) as [e|resp]; simpl; [done|].
  destruct (status_code resp =? 200)%Z; simpl; [|done].
  destruct (json resp) as [e|body]; simpl; [done|].
  destruct (getitem_cases body "data") as [[top_data ->]|[e ->]]; simpl; [|done].
  destruct (getitem_cases top_data "page") as [[page ->]|[e ->]]; simpl; [|done].
  destruct (getitem_cases page "image") as [[image ->]|[e ->]]; simpl; [|done].
  by destruct (getitem_cases image "url") as [[v ->]|[e ->]].
Qed.

(** X19. Page resolution raises exactly what its metadata fetch raises and
    nothing else: the fetch runs outside the [try], so its exception goes
    through, and once the fetch has returned, the call returns a value. *)
Theorem before_download_page_raises_with_metadata page_num u s :
  (∀ e, (before_download_page E page_num u s).2 = Raise e
        ↔ (get_book_infos E s).2 = Raise e)
  ∧ (∀ infos, (get_book_infos E s).2 = Ok infos →
       ∃ v, (before_download_page E page_num u s).2 = Ok v).
Proof.
  rewrite before_download_page_cases.
  destruct (get_book_infos E s) as [s1 [infos| |]]; simpl.
  - assert (Hv : ∃ v, (match table_lookup infos (page_num + 1) with
                       | Some id =>
                           if truthy id then
                             (set_trace (page_request s1 id) s1,
                              Ok match server E (page_request s1 id) with
                                 | inr resp =>
                                     if (status_code resp =? 200)%Z then
                                       match rbind (of_sum (json resp)) image_url with
                                       | Ok v => v
                                       | _ => PStr ""
                                       end
                                     else PStr ""
                                 | inl _ => PStr ""
                                 end)
                           else (s1, Ok (PStr ""))
                       | None => (s1, Ok (PStr ""))
                       end).2 = Ok v).
    { destruct (table_lookup infos (page_num + 1)) as [id|]; [|by eexists].
      destruct (truthy id); by eexists. }
    destruct Hv as [v Hv]. split.
    + intros e. rewrite Hv. done.
    + intros _ _. by exists v.
  - split; [intros e0; split; intros [= ->]; done|intros infos [=]].
  - split; [intros e0; split; intros [=]|intros infos [=]].
Qed.

(** X20. A page whose number is in the table with a usable id is resolved
    by one [getPageById] request for that id, sent with the instance's
    headers after the metadata query: when the answer has status 200 and
    its payload holds data, page, image and url one inside the other, the
    call returns that url member. *)
Theorem before_download_page_resolves page_num u s s1 infos id resp body v :
  get_book_infos E s = (s1, Ok infos) →
  table_lookup infos (page_num + 1) = Some id →
  truthy id = true →
  server E (page_request s1 id) = inr resp →
  status_code resp = 200%Z →
  json resp = inr body →
  image_url body = Ok v →
  before_download_page E page_num u s = (set_trace (page_request s1 id) s1, Ok v)
  ∧ page_requests (page_request s1 id) = S (page_requests (trace s)).
Proof.
  intros Hinfos Hid Husable Hreply Hcode Hjson Hurl.
  rewrite before_download_page_cases, Hinfos, Hid, Husable, Hreply, Hcode, Hjson.
  simpl. rewrite Hurl. split; [done|].
  unfold page_request. rewrite page_requests_app. simpl.
  pose proof (get_book_infos_page_requests E s) as Hreq.
  rewrite Hinfos in Hreq. simpl in Hreq. lia.
Qed.

(** X21. Every failure of the page request ends in the empty string: an
    exception of the request, a status other than 200, a body that is not
    JSON, and a payload without the url path all give the empty string,
    after the one request was sent. *)
Theorem before_download_page_absorbs_failures page_num u s s1 infos id :
  get_book_infos E s = (s1, Ok infos) →
  table_lookup infos (page_num + 1) = Some id →
  truthy id = true →
  (before_download_page E page_num u s).1 = set_trace (page_request s1 id) s1
  ∧ ((∃ e, server E (page_request s1 id) = inl e)
     ∨ (∃ resp, server E (page_request s1 id) = inr resp
          ∧ (status_code resp ≠ 200%Z
             ∨ (∃ e, json resp = inl e)
             ∨ (∃ body e, json resp = inr body ∧ image_url body = Raise e))) →
     (before_download_page E page_num u s).2 = Ok (PStr "")).
Proof.
  intros Hinfos Hid Husable.
  rewrite before_download_page_cases, Hinfos, Hid, Husable. simpl.
  split; [done|].
  intros [[e ->]|(resp & -> & Hbad)]; [done|].
  destruct (Z.eqb_spec (status_code resp) 200) as [Hcode|Hcode]; [|done].
  destruct Hbad as [Hne|[[e ->]|(body & e & -> & Hurl)]]; [done|done|].
  simpl. by rewrite Hurl.
Qed.

(** X22. A page number that is in the table with an id that counts as
    false (an empty text, null, 0) is treated like a missing one: the call
    returns the empty string and sends no [getPageById] request. *)
Theorem before_download_page_unusable_id page_num u s s1 infos id :
  get_book_infos E s = (s1, Ok infos) →
  table_lookup infos (page_num + 1) = Some id →
  truthy id = false →
  before_download_page E page_num u s = (s1, Ok (PStr ""))
  ∧ page_requests (trace s1) = page_requests (trace s).
Proof.
  intros Hinfos Hid Hunusable.
  rewrite before_download_page_cases, Hinfos, Hid, Hunusable.
  split; [done|].
  pose proof (get_book_infos_page_requests E s) as Hreq.
  by rewrite Hinfos in Hreq.
Qed.

(** The requests of a metadata fetch. *)
Lemma get_book_infos_requests s :
  headers (get_book_infos E s).1 = headers s
  ∧ ∃ evs, trace (get_book_infos E s).1 = trace s ++ evs
      ∧ length evs ≤ 1
      ∧ Forall (λ e, ∃ body, e = Post api_url (headers s) body) evs.
Proof.
  rewrite get_book_infos_unfold.
  assert (Hframe : headers (_parse_url s).1 = headers s
                   ∧ trace (_parse_url s).1 = trace s).
  { unfold _parse_url. destruct (negb _); [done|].
    destruct (search URL_PATTERN (url s)) as [[|g1 [|g2 [|]]]|]; try done.
    by destruct (float_of_string g2). }
  destruct Hframe as [Hh Ht].
  destruct (_parse_url s) as [s1 [[]| |]]; simpl in *.
  - split; [done|]. eexists [_]. unfold metadata_query. rewrite Ht, Hh.
    split; [done|]. split; [simpl; lia|]. repeat constructor. by eexists.
  - split; [done|]. exists []. rewrite app_nil_r.
    split; [done|]. split; [simpl; lia|constructor].
  - split; [done|]. exists []. rewrite app_nil_r.
    split; [done|]. split; [simpl; lia|constructor].
Qed.

(** X23. One page resolution costs at most two requests, at most one of
    them a [getPageById]; each goes to the API endpoint and carries the
    headers the instance had when the call began. *)
Theorem before_download_page_requests page_num u s :
  ∃ evs, trace (before_download_page E page_num u s).1 = trace s ++ evs
    ∧ length evs ≤ 2
    ∧ page_requests evs ≤ 1
    ∧ Forall (λ e, ∃ body, e = Post api_url (headers s) body) evs.
Proof.
  rewrite before_download_page_cases.
  destruct (get_book_infos_requests s) as (Hh & evs & Ht & Hlen & Hall).
  assert (Hnone : page_requests evs = 0).
  { pose proof (get_book_infos_page_requests E s) as Hreq.
    rewrite Ht, page_requests_app in Hreq. lia. }
  destruct (get_book_infos E s) as [s1 [infos| |]]; simpl in *;
    try (exists evs; repeat split; [done|lia|lia|done]).
  destruct (table_lookup infos (page_num + 1)) as [id|];
    [|exists evs; repeat split; [done|lia|lia|done]].
  destruct (truthy id); [|exists evs; repeat split; [done|lia|lia|done]].
  exists (evs ++ [Post api_url (headers s) (GetPageById id)]). simpl.
  unfold page_request. rewrite Ht, Hh, <- app_assoc.
  split; [done|]. rewrite length_app, page_requests_app, Hnone. simpl.
  split; [lia|]. split; [lia|].
  apply Forall_app. split; [done|]. repeat constructor. by eexists.
Qed.

(** What a returning [authenticate] leaves in the headers. *)
Lemma authenticate_installs fuel s s' :
  authenticate E fuel s = (s', Ok tt) →
  ∃ t, bearer s' = PStr t
    ∧ headers s' !! "authorization" = Some ("Bearer " +:+ t).
Proof.
  intros Hret. rewrite authenticate_unfold in Hret.
  apply bind_inv_ok in Hret as (sv & [] & _ & Hinst).
  apply install_ok in Hinst as (t & Hb & _ & ->).
  exists t. simpl. split; [done|]. by rewrite lookup_insert_eq.
Qed.

(** X24. Once [authenticate] has returned, every request of a page
    resolution carries the session: each request the call sends has the
    [authorization] header with Bearer and the token the instance
    holds. *)
Theorem session_header_on_page_requests fuel s s' page_num u :
  authenticate E fuel s = (s', Ok tt) →
  ∃ t evs,
    bearer s' = PStr t
    ∧ trace (before_download_page E page_num u s').1 = trace s' ++ evs
    ∧ Forall (λ e, ∃ h body, e = Post api_url h body
                     ∧ h !! "authorization" = Some ("Bearer " +:+ t)) evs.
Proof.
  intros Hret. apply authenticate_installs in Hret as (t & Hb & Hh).
  rewrite before_download_page_cases.
  destruct (get_book_infos_requests s') as (Hh' & evs & Ht & _ & Hall).
  assert (Hall' : Forall (λ e, ∃ h body, e = Post api_url h body
                     ∧ h !! "authorization" = Some ("Bearer " +:+ t)) evs).
  { eapply Forall_impl; [exact Hall|]. intros e [body ->]. by eexists _, _. }
  exists t.
  destruct (get_book_infos E s') as [s1 [infos| |]]; simpl in *;
    try (exists evs; by repeat split).
  destruct (table_lookup infos (page_num + 1)) as [id|];
    [|exists evs; by repeat split].
  destruct (truthy id); [|exists evs; by repeat split].
  exists (evs ++ [Post api_url (headers s') (GetPageById id)]). simpl.
  unfold page_request. rewrite Ht, Hh', <- app_assoc.
  split; [done|]. split; [done|].
  apply Forall_app. split; [done|]. repeat constructor. by eexists _, _.
Qed.

End PageCoverage.

Section PageCoverageExamples.
Import Py Float64 Regex MangasIo Props Scenarios.

Lemma before_download_page_resolves_witness :
  (before_download_page library_env 1 "" reader).2 = Ok (PStr "https://cdn.mangas.io/b").
Proof.
  destruct (before_download_page_resolves library_env 1 "" reader _ _ (PStr "b") _ _
              (PStr "https://cdn.mangas.io/b") eq_refl eq_refl eq_refl eq_refl eq_refl
              eq_refl eq_refl) as [Hrun _].
  by rewrite Hrun.
Defined.

Lemma before_download_page_absorbs_failures_witness :
  (before_download_page flaky_env 0 "" reader).2 = Ok (PStr "")
  ∧ page_requests (trace (before_download_page flaky_env 0 "" reader).1) = 1.
Proof.
  destruct (before_download_page_absorbs_failures flaky_env 0 "" reader _ _ (PStr "a")
              eq_refl eq_refl eq_refl) as [Hstate Hempty].
  split.
  - apply Hempty. right. eexists. split; [reflexivity|]. by left.
  - by rewrite Hstate.
Defined.

Lemma before_download_page_unusable_id_witness :
  (before_download_page (fixed_env (answer 200 blank_id)) 0 "" reader).2 = Ok (PStr "")
  ∧ page_requests
      (trace (before_download_page (fixed_env (answer 200 blank_id)) 0 "" reader).1) = 0.
Proof.
  destruct (before_download_page_unusable_id (fixed_env (answer 200 blank_id)) 0 "" reader
              _ _ (PStr "") eq_refl eq_refl eq_refl) as [Hrun Hreq].
  rewrite Hrun. simpl. split; [done|exact Hreq].
Defined.

Lemma session_header_on_page_requests_witness :
  ∃ evs,
    trace (before_download_page session_env 0 reader_url
             (authenticate session_env 2 (cached "tok-old")).1).1
    = trace (authenticate session_env 2 (cached "tok-old")).1 ++ evs
    ∧ Forall (λ e, ∃ h body, e = Post api_url h body
                     ∧ h !! "authorization" = Some "Bearer tok-live") evs.
Proof.
  assert (Hret : (authenticate session_env 2 (cached "tok-old")).2 = Ok tt)
    by (vm_compute; reflexivity).
  assert (Hbear : bearer (authenticate session_env 2 (cached "tok-old")).1
                  = PStr "tok-live") by (vm_compute; reflexivity).
  destruct (authenticate session_env 2 (cached "tok-old")) as [s' r] eqn:Hrun.
  cbn [fst snd] in *. subst r.
  destruct (session_header_on_page_requests session_env 2 (cached "tok-old") s' 0
              reader_url Hrun) as (t & evs & Hb & Ht & Hall).
  rewrite Hbear in Hb. injection Hb as <-.
  exists evs. split; [exact Ht|exact Hall].
Defined.

End PageCoverageExamples.

(** ** Further lemmas: the semaphore *)

Section GateCoverage.
Import Gate.

Lemma init_orderly n : orderly (init n).
Proof.
  unfold orderly, init. simpl. split; [|split]; [|intros j Hj|done].
  - intros j Hj. by apply elem_of_nil in Hj.
  - apply lookup_replicate in Hj as [? _]. done.
Qed.

Lemma lookup_insert_other (l : list pc) i j q p :
  <[i := q]> l !! j = Some p → p ≠ q → l !! j = Some p.
Proof.
  intros H Hne. destruct (decide (i = j)) as [->|Hij].
  - apply list_lookup_insert_Some in H as [(_ & <- & _)|[_ H]]; done.
  - by rewrite list_lookup_insert_ne in H.
Qed.

(** The first two parts of [orderly] go through a change of one call that
    neither waits before nor after and is not in the deque. *)
Lemma orderly_elsewhere_queue (ws : list nat) (l : list pc) i p q :
  l !! i = Some p → p ≠ Queued → p ≠ Granted → q ≠ Queued →
  (∀ j, j ∈ ws → l !! j = Some Queued ∨ l !! j = Some Granted) →
  (∀ j, l !! j = Some Queued → j ∈ ws) →
  (∀ j, j ∈ ws → <[i := q]> l !! j = Some Queued ∨ <[i := q]> l !! j = Some Granted)
  ∧ (∀ j, <[i := q]> l !! j = Some Queued → j ∈ ws).
Proof.
  intros Hp Hq Hg Hq' Hw Hall. split.
  - intros j Hj. rewrite list_lookup_insert_ne; [by apply Hw|].
    intros ->. destruct (Hw j Hj); congruence.
  - intros j Hj. apply Hall. eapply lookup_insert_other; [exact Hj|congruence].
Qed.

Lemma wake_up_next_orderly g :
  value g = 1 → held (calls g) = 0 →
  (∀ j, j ∈ waiters g → calls g !! j = Some Queued ∨ calls g !! j = Some Granted) →
  (∀ j, calls g !! j = Some Queued → j ∈ waiters g) →
  orderly (_wake_up_next g).
Proof.
  intros Hv Hh Hw Hall. unfold _wake_up_next.
  destruct (List.find _ _) as [j|] eqn:Hf.
  - apply pending_found in Hf as [Hin Hj]. unfold orderly. simpl.
    split; [|split]; [| |lia].
    + intros k Hk. destruct (decide (j = k)) as [->|Hjk].
      * right. apply list_lookup_insert_eq. by eapply lookup_lt_Some.
      * rewrite list_lookup_insert_ne by done. by apply Hw.
    + intros k Hk. apply Hall. eapply lookup_insert_other; [exact Hk|done].
  - split; [done|]. split; [done|]. intros _.
    apply elem_of_nil_inv. intros j Hin.
    pose proof (find_none _ _ Hf j) as Hnone.
    specialize (Hnone (proj1 (list_elem_of_In _ _) Hin)). unfold pending in Hnone.
    destruct (Hw j Hin) as [Hj|Hj]; rewrite Hj in Hnone; [done|].
    pose proof (weight_le_held _ _ _ Hj). simpl in *. lia.
Qed.

Lemma step_orderly a i g : balanced g → orderly g → orderly (step a i g).
Proof.
  unfold balanced. intros Hb (Hw & Hall & Hfree). unfold step.
  destruct (calls g !! i) as [p|] eqn:Hp; [|done].
  pose proof (weight_le_held _ _ _ Hp) as Hwt.
  destruct a, p; try done; simpl in Hwt.
  - (* acquire, new call *)
    unfold locked.
    destruct (Nat.eqb_spec (value g) 0) as [Hv|Hv]; simpl;
      [|destruct (waiters g) as [|w ws] eqn:Hws; simpl].
    + unfold orderly. simpl. split; [|split]; [| |lia].
      * intros j [Hj| ->%list_elem_of_singleton]%elem_of_app.
        -- destruct (decide (i = j)) as [->|Hij].
           ++ left. apply list_lookup_insert_eq. by eapply lookup_lt_Some.
           ++ rewrite list_lookup_insert_ne by done. by apply Hw.
        -- left. apply list_lookup_insert_eq. by eapply lookup_lt_Some.
      * intros j Hj. apply elem_of_app. destruct (decide (i = j)) as [->|Hij].
        -- right. by apply list_elem_of_singleton.
        -- left. apply Hall. by rewrite list_lookup_insert_ne in Hj.
    + unfold orderly. simpl. split; [|split]; [| |lia].
      * intros j Hj. by apply elem_of_nil in Hj.
      * intros j Hj. rewrite ?Hws. apply Hall.
        eapply lookup_insert_other; [exact Hj|done].
    + exfalso. assert (Hnil : w :: ws = []) by (apply Hfree; lia). done.
  - (* acquire, resumed with the permit *)
    assert (Hv : value g = 0) by lia. cbn [value]. rewrite Hv. simpl.
    unfold orderly. simpl. split; [|split]; [| |lia].
    + intros j [Hne Hj]%list_elem_of_filter.
      rewrite list_lookup_insert_ne by done. by apply Hw.
    + intros j Hj. apply list_elem_of_filter.
      assert (Hold : calls g !! j = Some Queued)
        by (eapply lookup_insert_other; [exact Hj|done]).
      split; [congruence|by apply Hall].
  - (* await *)
    unfold orderly. simpl.
    destruct (orderly_elsewhere_queue (waiters g) (calls g) i Resolving Fetching)
      as [Hw' Hall']; done.
  - (* release, before the request *)
    destruct (orderly_elsewhere_queue (waiters g) (calls g) i Resolving Returned)
      as [Hw' Hall']; try done.
    pose proof (held_insert _ _ _ Returned Hp) as Hins. simpl in Hins.
    apply wake_up_next_orderly; simpl; [lia|lia|done|done].
  - (* release, after the request *)
    destruct (orderly_elsewhere_queue (waiters g) (calls g) i Fetching Returned)
      as [Hw' Hall']; try done.
    pose proof (held_insert _ _ _ Returned Hp) as Hins. simpl in Hins.
    apply wake_up_next_orderly; simpl; [lia|lia|done|done].
Qed.

Lemma run_orderly sched : ∀ g, balanced g → orderly g → orderly (run sched g).
Proof.
  induction sched as [|[a i] sched IH]; intros g Hb Ho; simpl; [done|].
  apply IH; [by apply step_balanced|by apply step_orderly].
Qed.

(** With the permit handed out and nobody in the body, one call was
    handed it. *)
Lemma handed_exists l : running l < held l → ∃ j, l !! j = Some Granted.
Proof.
  induction l as [|p l IH]; simpl; [lia|]. intros H.
  destruct p; simpl in H; try (destruct IH as [j Hj]; [lia|by exists (S j)]).
  by exists 0.
Qed.

Lemma held_two l : ∀ j k p q,
  j ≠ k → l !! j = Some p → l !! k = Some q → weight p + weight q ≤ held l.
Proof.
  induction l as [|x l IH]; intros [|j] [|k] p q Hne Hj Hk; simpl in *; try done.
  - injection Hj as ->. pose proof (weight_le_held _ _ _ Hk). lia.
  - injection Hk as ->. pose proof (weight_le_held _ _ _ Hj). lia.
  - assert (Hjk : j ≠ k) by congruence. specialize (IH j k p q Hjk Hj Hk). lia.
Qed.

Lemma running_in_body l : ∀ i p, l !! i = Some p → in_body p = true → 1 ≤ running l.
Proof.
  induction l as [|x l IH]; intros [|i] p H Hin; simpl in *; try done.
  - injection H as ->. rewrite Hin. lia.
  - specialize (IH i p H Hin). lia.
Qed.

(** X25. The permit is never lost and never given twice. Under every
    schedule, when no call is inside the body, either the permit is free,
    and then nobody waits and a new call enters at its [acquire]; or the
    last [release] handed it to exactly one waiting call, which enters as
    soon as the event loop resumes it, and a new call lines up behind.
    And whenever a call waits, the permit is with some other call. *)
Theorem gate_permit_never_lost n sched g :
  g = run sched (init n) →
  (running (calls g) = 0 →
     (value g = 1
      ∧ (∀ i, calls g !! i ≠ Some Queued)
      ∧ ∀ i, calls g !! i = Some Called →
          calls (step Acquire i g) !! i = Some Resolving
          ∧ running (calls (step Acquire i g)) = 1)
     ∨ (value g = 0
        ∧ ∃ j, calls g !! j = Some Granted
            ∧ (∀ k, calls g !! k = Some Granted → k = j)
            ∧ calls (step Acquire j g) !! j = Some Resolving
            ∧ ∀ i, calls g !! i = Some Called →
                calls (step Acquire i g) !! i = Some Queued))
  ∧ (∀ i, calls g !! i = Some Queued → value g = 0 ∧ held (calls g) = 1).
Proof.
  intros ->.
  pose proof (run_balanced sched _ (init_balanced n)) as Hb.
  pose proof (run_orderly sched _ (init_balanced n) (init_orderly n))
    as (Hw & Hall & Hfree).
  set (g := run sched (init n)) in *. unfold balanced in Hb.
  assert (Hwait : ∀ i, calls g !! i = Some Queued → value g = 0 ∧ held (calls g) = 1).
  { intros i Hi. apply Hall in Hi.
    destruct (value g) as [|v] eqn:Hv; [lia|].
    rewrite Hfree in Hi by lia. by apply elem_of_nil in Hi. }
  split; [|exact Hwait].
  intros Hnone. destruct (value g) as [|v] eqn:Hv.
  - right. split; [done|].
    destruct (handed_exists (calls g)) as [j Hj]; [lia|].
    exists j. split; [done|]. split; [|split].
    + intros k Hk. destruct (decide (k = j)) as [|Hne]; [done|].
      pose proof (held_two _ _ _ _ _ Hne Hk Hj). simpl in *. lia.
    + unfold step. rewrite Hj. cbn [value]. rewrite Hv. simpl.
      apply list_lookup_insert_eq. by eapply lookup_lt_Some.
    + intros i Hi. unfold step, locked. rewrite Hi, Hv. simpl.
      apply list_lookup_insert_eq. by eapply lookup_lt_Some.
  - left. assert (v = 0) as -> by lia. split; [done|]. split.
    + intros i Hi. apply Hwait in Hi. lia.
    + intros i Hi.
      assert (Hrun : calls (step Acquire i g) !! i = Some Resolving).
      { unfold step, locked. rewrite Hi, Hv, Hfree by lia. simpl.
        apply list_lookup_insert_eq. by eapply lookup_lt_Some. }
      split; [done|].
      pose proof (step_balanced Acquire i g) as Hb'. unfold balanced in Hb'.
      pose proof (running_le_held (calls (step Acquire i g))).
      pose proof (running_in_body _ _ _ Hrun eq_refl).
      specialize (Hb' ltac:(lia)). lia.
Qed.

Lemma run_app sched1 sched2 g : run (sched1 ++ sched2) g = run sched2 (run sched1 g).
Proof.
  revert g. induction sched1 as [|[a i] sched1 IH]; intros g; simpl; [done|].
  apply IH.
Qed.

Lemma insert_at_end (before : list pc) p q after :
  <[length before := q]> (before ++ p :: after) = before ++ q :: after.
Proof.
  rewrite insert_app_r_alt by lia. by rewrite Nat.sub_diag.
Qed.

(** One call alone at a free gate runs through. *)
Lemma run_one_call before after :
  run (one_call (length before))
    {| value := 1; waiters := []; calls := before ++ Called :: after |}
  = {| value := 1; waiters := []; calls := before ++ Returned :: after |}.
Proof.
  unfold one_call, run, step, locked, _wake_up_next. cbn [calls value waiters].
  rewrite list_lookup_middle by done. simpl.
  rewrite !insert_at_end, list_lookup_middle by done. simpl.
  rewrite !insert_at_end, list_lookup_middle by done. simpl.
  by rewrite ?insert_at_end.
Qed.

Lemma run_serial m : ∀ before,
  run (serial_from (length before) m)
    {| value := 1; waiters := []; calls := before ++ replicate m Called |}
  = {| value := 1; waiters := []; calls := before ++ replicate m Returned |}.
Proof.
  induction m as [|m IH]; intros before; [done|].
  cbn [serial_from replicate].
  rewrite run_app, run_one_call.
  specialize (IH (before ++ [Returned])).
  rewrite length_app, <- !app_assoc in IH. simpl in IH.
  replace (length before + 1) with (S (length before)) in IH by lia.
  exact IH.
Qed.

Lemma running_returned n : running (replicate n Returned) = 0.
Proof. induction n as [|n IH]; simpl; [done|exact IH]. Qed.

(** X26. The gate does not block for good: any number of calls can all
    return. The schedule that lets them through one after the other ends
    with every call returned, nobody inside the body and the permit
    back. *)
Theorem gate_serves_all_calls n :
  calls (run (serial_from 0 n) (init n)) = replicate n Returned
  ∧ running (calls (run (serial_from 0 n) (init n))) = 0
  ∧ value (run (serial_from 0 n) (init n)) = 1.
Proof.
  pose proof (run_serial n []) as Hrun. simpl in Hrun.
  unfold init. rewrite Hrun. simpl.
  split; [done|]. split; [apply running_returned|done].
Qed.

End GateCoverage.

Section GateCoverageExamples.
Import Gate.

(** Two calls wait while the first is in the body; its [release] hands
    the permit to the one that came first, and a newcomer lines up. *)
Lemma gate_permit_never_lost_witness :
  calls (run [(Acquire, 0); (Acquire, 1); (Acquire, 2); (Release, 0)] (init 4))
  = [Returned; Granted; Queued; Called]
  ∧ value (run [(Acquire, 0); (Acquire, 1); (Acquire, 2); (Release, 0)] (init 4)) = 0
  ∧ calls (step Acquire 3
             (run [(Acquire, 0); (Acquire, 1); (Acquire, 2); (Release, 0)] (init 4))) !! 3
    = Some Queued.
Proof.
  split; [reflexivity|].
  destruct (gate_permit_never_lost 4
              [(Acquire, 0); (Acquire, 1); (Acquire, 2); (Release, 0)] _ eq_refl)
    as [Hfree Hwait].
  split; [exact (proj1 (Hwait 2 eq_refl))|].
  destruct (Hfree eq_refl) as [(Hv & _)|(_ & j & _ & _ & _ & Hline)]; [done|].
  by apply Hline.
Defined.

End GateCoverageExamples.
